(** * nusm: the synchronisation engine of [createNusmStore]

    A shallow embedding of [src/nusm.ts]: hydration, the persistence
    scheduler and the external-event reconciler, with JavaScript values as
    an inductive type, the closure variables of [createNusmStore] as one
    record, and the imperative code (assignments, exceptions, [try]/[catch])
    written in a state-and-exception monad.

    Conventions.
    - Every [async] function of the source is one transition of the model:
      the adapter's answers are taken from the [World] handed to the
      transition (what [adapter.getItem] returns, what the clock reads).
    - User callbacks ([validate], [merge], [discardPersisted], [select],
      [apply]) and adapter calls may throw; the key resolver is a total
      function (construction already called it for every unit) and the
      error sink only records.
    - The devtools emitter is left out ([options.devtools] unset); the
      [log] field records the effects the claims talk about instead. *)

From Stdlib Require Import ZArith Ascii String.
From stdpp Require Import gmap strings list fin_maps.

#[local] Set Warnings "-register-all".
#[local] Open Scope Z_scope.
#[local] Open Scope string_scope.

(* ===================================================================== *)
(** ** JavaScript values *)
(* ===================================================================== *)

(** [unknown] and [TState]: JSON-like values plus [undefined].  Objects are
    finite maps from property names to values. *)
Inductive JValue : Type :=
| JUndefined
| JNull
| JBool (b : bool)
| JNum (n : Z)
| JStr (s : string)
| JArr (items : list JValue)
| JObj (fields : gmap string JValue).

(** [v == null] *)
Definition is_nullish (v : JValue) : bool :=
  match v with
  | JUndefined | JNull => true
  | _ => false
  end.

(** [a ?? b] *)
Definition nullish_coalesce (a b : JValue) : JValue :=
  if is_nullish a then b else a.

(** Truthiness of a string ([!storeId], [event.key]). *)
Definition truthy_string (s : string) : bool :=
  match s with
  | EmptyString => false
  | _ => true
  end.

(** Anything can be thrown. *)
Definition Exn : Type := JValue.

Inductive Result (A : Type) : Type :=
| Ok (a : A)
| Throw (e : Exn).
Arguments Ok {A} a.
Arguments Throw {A} e.

(* ===================================================================== *)
(** ** [deepMerge] *)
(* ===================================================================== *)

(** Modelled from the spec: [deepMerge] is [@fastify/deepmerge], a package
    the repository imports and whose code is not under src/.  The source
    configures it with [mergeArray: () => (_target, source) => source]
    (nusm.ts, lines 13-15).  Following the spec's words: mapping-like values
    merge key by key, recursively; arrays are replaced wholesale by the
    persisted ([source]) side; in every other case the persisted side
    wins. *)
Fixpoint deepMerge (target source : JValue) {struct source} : JValue :=
  match source with
  | JObj sm =>
      match target with
      | JObj tm =>
          JObj (map_imap
                  (fun k s =>
                     Some (match tm !! k with
                           | Some t => deepMerge t s
                           | None => s
                           end)) sm ∪ tm)
      | _ => source
      end
  | _ => source
  end.

(* ===================================================================== *)
(** ** Strings: [toLowerCase], [includes] *)
(* ===================================================================== *)

(** [toLowerCase] on the ASCII letters. *)
Definition lower_ascii (c : ascii) : ascii :=
  let n := nat_of_ascii c in
  if (Nat.leb 65 n && Nat.leb n 90)%bool then ascii_of_nat (n + 32) else c.

Fixpoint toLowerCase (s : string) : string :=
  match s with
  | EmptyString => EmptyString
  | String c rest => String (lower_ascii c) (toLowerCase rest)
  end.

(** [s.includes(needle)] *)
Fixpoint includes (needle s : string) : bool :=
  if String.prefix needle s then true
  else match s with
       | EmptyString => false
       | String _ rest => includes needle rest
       end.

(* ===================================================================== *)
(** ** types.ts *)
(* ===================================================================== *)

Inductive Kind := KEntire | KSlice.
Inductive Strategy := StrategyEntire | StrategySlices.

Inductive AdapterEventType := EvSet | EvRemove | EvClear.

Record AdapterEvent := {
  ev_type : AdapterEventType;
  ev_key : option string
}.

(** [NusmPacerConfig]: [false], or the debouncer's options. *)
Inductive NusmPacerConfig :=
| PacerOff
| PacerOn (wait : Z) (leading trailing : bool).

(** The static part of [NusmAdapter]; [getItem] and [setItem] talk to the
    outside and live in [World]. *)
Record NusmAdapter := {
  name : string;
  adapter_resolveKey : option (string -> Kind -> option string -> string);
  pacer : option NusmPacerConfig;
  has_subscribe : bool
}.

Record PersistSlice := {
  key : string;
  select : JValue -> Result JValue;
  apply : JValue -> JValue -> Result JValue
}.

(** What [validate] may return: a boolean, or [{ ok, value? }]. *)
Inductive ValidateResult :=
| VBool (b : bool)
| VStruct (ok : bool) (value : option JValue).

(** [discardPersisted?: boolean | (() => boolean)] *)
Inductive DiscardPersisted :=
| DiscardFlag (b : bool)
| DiscardFn (f : unit -> Result bool).

Record HydrateConfig := {
  validate : option (JValue -> Result ValidateResult);
  merge : option (JValue -> JValue -> Result JValue);
  discardPersisted : option DiscardPersisted
}.

Inductive HydrationState :=
| not_configured | pending | hydrated | discarded | error.

#[global] Instance HydrationState_eq_dec : EqDecision HydrationState.
Proof. solve_decision. Defined.

(** The arguments of [createNusmStore] as the body sees them:
    [strategy] is [persist?.strategy ?? "entire"], [slices] is
    [persist?.slices ?? []], [storeId] is [resolveStoreId(options)]. *)
Record Config := {
  initialState : JValue;
  adapter : option NusmAdapter;
  strategy : Strategy;
  slices : list PersistSlice;
  hydrateConfig : HydrateConfig;
  storeId : option string
}.

(** What the outside answers during one transition. *)
Record World := {
  getItem : string -> Result JValue;       (* adapter.getItem(key) *)
  setItem : string -> JValue -> Result unit; (* adapter.setItem(key, value) *)
  now : Z;                                  (* Date.now() *)
  setState_throws : JValue -> option Exn;   (* store.setState(v) throws *)
  Object_is : JValue -> JValue -> bool      (* reference identity *)
}.

(* ===================================================================== *)
(** ** The closure state of one store *)
(* ===================================================================== *)

Inductive ReadySignal :=
| ReadyPending
| ReadyResolved
| ReadyRejected (e : Exn).

Record QueueEntry := {
  q_key : string;
  q_payload : JValue;
  q_sliceKey : option string;
  q_kind : Kind
}.

(** Effects the engine performs on its collaborators, in order. *)
Inductive Effect :=
| EGetItem (k : string)              (* adapter.getItem(k) *)
| ESetItem (k : string) (v : JValue) (* adapter.setItem(k, v) *)
| EScheduled (k : string)            (* enqueuePersist: "persist_scheduled" *)
| EFlushNow                          (* void flushQueue() *)
| EPacer                             (* pacer.maybeExecute() *)
| EOnError (e : Exn).                (* onError?.(e) *)

Record Store := {
  state : JValue;                              (* store.state *)
  isReady : bool;
  suppressPersist : bool;
  ready : ReadySignal;                         (* store.ready *)
  byKey : gmap string HydrationState;          (* hydrationStatus.byKey *)
  overall : HydrationState;                    (* hydrationStatus.overall *)
  recentWrites : gmap string Z;
  queuedPayloads : list (string * QueueEntry); (* a Map, insertion order *)
  pendingAdapterEvents : list AdapterEvent;
  log : list Effect
}.

Definition set_state (v : JValue) (st : Store) : Store :=
  {| state := v; isReady := isReady st; suppressPersist := suppressPersist st;
     ready := ready st; byKey := byKey st; overall := overall st;
     recentWrites := recentWrites st; queuedPayloads := queuedPayloads st;
     pendingAdapterEvents := pendingAdapterEvents st; log := log st |}.

Definition set_isReady (b : bool) (st : Store) : Store :=
  {| state := state st; isReady := b; suppressPersist := suppressPersist st;
     ready := ready st; byKey := byKey st; overall := overall st;
     recentWrites := recentWrites st; queuedPayloads := queuedPayloads st;
     pendingAdapterEvents := pendingAdapterEvents st; log := log st |}.

Definition set_suppressPersist (b : bool) (st : Store) : Store :=
  {| state := state st; isReady := isReady st; suppressPersist := b;
     ready := ready st; byKey := byKey st; overall := overall st;
     recentWrites := recentWrites st; queuedPayloads := queuedPayloads st;
     pendingAdapterEvents := pendingAdapterEvents st; log := log st |}.

(** A promise settles once: later calls of resolve/reject do nothing. *)
Definition settle (r : ReadySignal) (st : Store) : Store :=
  {| state := state st; isReady := isReady st;
     suppressPersist := suppressPersist st;
     ready := match ready st with ReadyPending => r | settled => settled end;
     byKey := byKey st; overall := overall st;
     recentWrites := recentWrites st; queuedPayloads := queuedPayloads st;
     pendingAdapterEvents := pendingAdapterEvents st; log := log st |}.

Definition set_byKey (k : string) (s : HydrationState) (st : Store) : Store :=
  {| state := state st; isReady := isReady st;
     suppressPersist := suppressPersist st; ready := ready st;
     byKey := <[k := s]> (byKey st); overall := overall st;
     recentWrites := recentWrites st; queuedPayloads := queuedPayloads st;
     pendingAdapterEvents := pendingAdapterEvents st; log := log st |}.

Definition set_overall (s : HydrationState) (st : Store) : Store :=
  {| state := state st; isReady := isReady st;
     suppressPersist := suppressPersist st; ready := ready st;
     byKey := byKey st; overall := s;
     recentWrites := recentWrites st; queuedPayloads := queuedPayloads st;
     pendingAdapterEvents := pendingAdapterEvents st; log := log st |}.

Definition set_recentWrites (m : gmap string Z) (st : Store) : Store :=
  {| state := state st; isReady := isReady st;
     suppressPersist := suppressPersist st; ready := ready st;
     byKey := byKey st; overall := overall st;
     recentWrites := m; queuedPayloads := queuedPayloads st;
     pendingAdapterEvents := pendingAdapterEvents st; log := log st |}.

Definition set_queuedPayloads (q : list (string * QueueEntry)) (st : Store)
  : Store :=
  {| state := state st; isReady := isReady st;
     suppressPersist := suppressPersist st; ready := ready st;
     byKey := byKey st; overall := overall st;
     recentWrites := recentWrites st; queuedPayloads := q;
     pendingAdapterEvents := pendingAdapterEvents st; log := log st |}.

Definition set_pendingAdapterEvents (l : list AdapterEvent) (st : Store)
  : Store :=
  {| state := state st; isReady := isReady st;
     suppressPersist := suppressPersist st; ready := ready st;
     byKey := byKey st; overall := overall st;
     recentWrites := recentWrites st; queuedPayloads := queuedPayloads st;
     pendingAdapterEvents := l; log := log st |}.

Definition emit (e : Effect) (st : Store) : Store :=
  {| state := state st; isReady := isReady st;
     suppressPersist := suppressPersist st; ready := ready st;
     byKey := byKey st; overall := overall st;
     recentWrites := recentWrites st; queuedPayloads := queuedPayloads st;
     pendingAdapterEvents := pendingAdapterEvents st; log := log st ++ [e] |}.

(* ===================================================================== *)
(** ** The monad of the function bodies: state and exceptions *)
(* ===================================================================== *)

Definition M (A : Type) : Type := Store -> Result A * Store.

Definition ret {A} (a : A) : M A := fun st => (Ok a, st).

Definition throw {A} (e : Exn) : M A := fun st => (Throw e, st).

Definition bind {A B} (m : M A) (k : A -> M B) : M B :=
  fun st =>
    match m st with
    | (Ok a, st') => k a st'
    | (Throw e, st') => (Throw e, st')
    end.

(** [try { m } catch (error) { h error }]: what [m] did to the state before
    it threw stays done. *)
Definition try_catch {A} (m : M A) (h : Exn -> M A) : M A :=
  fun st =>
    match m st with
    | (Ok a, st') => (Ok a, st')
    | (Throw e, st') => h e st'
    end.

(** A callback's outcome, inside a body. *)
Definition call {A} (r : Result A) : M A :=
  match r with
  | Ok a => ret a
  | Throw e => throw e
  end.

Definition get : M Store := fun st => (Ok st, st).

Definition modify (f : Store -> Store) : M unit := fun st => (Ok tt, f st).

(** [void promise]: a rejection goes nowhere. *)
Definition void (m : M unit) : M unit := try_catch m (fun _ => ret tt).

Definition exec {A} (m : M A) (st : Store) : Store := snd (m st).
Definition outcome {A} (m : M A) (st : Store) : Result A := fst (m st).

Declare Scope nusm_scope.
Delimit Scope nusm_scope with nusm.
Notation "'let*' x ':=' c 'in' k" := (bind c (fun x => k))
  (at level 10, x name, c at level 100, k at level 200) : nusm_scope.
Notation "c '>>' k" := (bind c (fun _ => k))
  (at level 90, right associativity) : nusm_scope.
#[local] Open Scope nusm_scope.

(** [for (const x of xs) body(x)] *)
Fixpoint for_each {A} (xs : list A) (body : A -> M unit) : M unit :=
  match xs with
  | [] => ret tt
  | x :: rest => body x >> for_each rest body
  end.

(* ===================================================================== *)
(** ** Keys and persistence units *)
(* ===================================================================== *)

Definition defaultResolveKey (storeId : string) (kind : Kind)
  (sliceKey : option string) : string :=
  match kind with
  | KEntire => "nusm:" ++ storeId ++ ":entire"
  | KSlice =>
      "nusm:" ++ storeId ++ ":slice:" ++ default "undefined" sliceKey
  end.

Definition resolveKey (cfg : Config) (kind : Kind) (sliceKey : option string)
  : string :=
  match storeId cfg with
  | None => ""
  | Some sid =>
      if negb (truthy_string sid) then ""
      else match adapter cfg with
           | Some {| adapter_resolveKey := Some f |} => f sid kind sliceKey
           | _ => defaultResolveKey sid kind sliceKey
           end
  end.

Record Unit := { kind : Kind; sliceKey : option string }.

(** The [persistenceUnits] map built at construction. *)
Definition persistenceUnits (cfg : Config) : gmap string Unit :=
  match adapter cfg with
  | None => ∅
  | Some _ =>
      match strategy cfg with
      | StrategyEntire =>
          {[ resolveKey cfg KEntire None :=
               {| kind := KEntire; sliceKey := None |} ]}
      | StrategySlices =>
          foldl (fun units slice =>
                   <[ resolveKey cfg KSlice (Some (key slice)) :=
                        {| kind := KSlice; sliceKey := Some (key slice) |} ]>
                     units)
                ∅ (slices cfg)
      end
  end.

Definition recentWriteWindowMs (cfg : Config) : Z :=
  match adapter cfg with
  | Some a => if includes "index" (toLowerCase (name a)) then 1000 else 500
  | None => 500
  end.

(** [Map.prototype.set] on an insertion-ordered map. *)
Fixpoint map_set {V} (k : string) (v : V) (m : list (string * V))
  : list (string * V) :=
  match m with
  | [] => [(k, v)]
  | (k', v') :: rest =>
      if String.eqb k k' then (k, v) :: rest else (k', v') :: map_set k v rest
  end.

(* ===================================================================== *)
(** ** Hydration helpers *)
(* ===================================================================== *)

Definition shouldDiscardPersisted (hydrate : HydrateConfig) : Result bool :=
  match discardPersisted hydrate with
  | Some (DiscardFn f) => f tt
  | Some (DiscardFlag b) => Ok b
  | None => Ok false
  end.

Record Validated := { r_ok : bool; r_value : JValue }.

Definition resolveValidateResult (validateResult : ValidateResult)
  (persisted : JValue) : Validated :=
  match validateResult with
  | VBool b => {| r_ok := b; r_value := persisted |}
  | VStruct ok value =>
      {| r_ok := ok;
         r_value := nullish_coalesce (default JUndefined value) persisted |}
  end.

(* ===================================================================== *)
(** ** The persistence scheduler *)
(* ===================================================================== *)

Section Engine.
Variable cfg : Config.
Variable w : World.

Definition flushQueue : M unit :=
  let* st := get in
  match adapter cfg, queuedPayloads st with
  | None, _ | _, [] => ret tt
  | Some _, entries =>
      modify (set_queuedPayloads []) >>
      for_each entries (fun kv =>
        let entry := snd kv in
        modify (emit (ESetItem (q_key entry) (q_payload entry))) >>
        match setItem w (q_key entry) (q_payload entry) with
        | Ok _ =>
            modify (fun st =>
              set_recentWrites
                (<[ q_key entry := now w ]> (recentWrites st)) st)
        | Throw e => modify (emit (EOnError e))
        end)
  end.

Definition scheduleFlush : M unit :=
  match adapter cfg with
  | None => ret tt
  | Some a =>
      match pacer a with
      | Some PacerOff => modify (emit EFlushNow) >> void flushQueue
      | _ => modify (emit EPacer)
      end
  end.

Definition enqueuePersist (entry : QueueEntry) : M unit :=
  modify (fun st =>
    set_queuedPayloads (map_set (q_key entry) entry (queuedPayloads st)) st)
  >> modify (emit (EScheduled (q_key entry)))
  >> scheduleFlush.

(** The callback [subscribeToStore] hands to [store.subscribe]. *)
Definition subscribeToStore (prevVal currentVal : JValue) : M unit :=
  let* st := get in
  match adapter cfg with
  | None => ret tt
  | Some _ =>
      if suppressPersist st then ret tt
      else
        match strategy cfg with
        | StrategyEntire =>
            enqueuePersist
              {| q_key := resolveKey cfg KEntire None;
                 q_kind := KEntire; q_payload := currentVal;
                 q_sliceKey := None |}
        | StrategySlices =>
            for_each (slices cfg) (fun slice =>
              let* prevSlice := call (select slice prevVal) in
              let* nextSlice := call (select slice currentVal) in
              if Object_is w prevSlice nextSlice then ret tt
              else
                enqueuePersist
                  {| q_key := resolveKey cfg KSlice (Some (key slice));
                     q_kind := KSlice; q_payload := nextSlice;
                     q_sliceKey := Some (key slice) |})
        end
  end.

(** [store.setState(v)]: the container assigns and then notifies its
    subscriber; a container whose [setState] throws assigns nothing. *)
Definition setState (v : JValue) : M unit :=
  match setState_throws w v with
  | Some e => throw e
  | None =>
      let* st := get in
      modify (set_state v) >> subscribeToStore (state st) v
  end.

Definition applyState (nextState : JValue) : M unit :=
  modify (set_suppressPersist true) >>
  setState nextState >>
  modify (set_suppressPersist false).

(* =================================================================== *)
(** ** Hydration *)
(* =================================================================== *)

(** [adapter.getItem(key)], recorded. *)
Definition adapter_getItem (k : string) : M JValue :=
  modify (emit (EGetItem k)) >> call (getItem w k).

Definition onError (e : Exn) : M unit := modify (emit (EOnError e)).

Definition hydrateEntire : M JValue :=
  let key := resolveKey cfg KEntire None in
  match adapter cfg with
  | None => ret (initialState cfg)
  | Some _ =>
      let* discard := call (shouldDiscardPersisted (hydrateConfig cfg)) in
      if discard then
        modify (set_byKey "entire" discarded) >> ret (initialState cfg)
      else
        try_catch
          (let* raw := adapter_getItem key in
           if is_nullish raw then
             modify (set_byKey "entire" hydrated) >> ret (initialState cfg)
           else
             let mergeStep (persistedValue : JValue) : M JValue :=
               let* merged :=
                 call (match merge (hydrateConfig cfg) with
                       | Some m => m (initialState cfg) persistedValue
                       | None =>
                           Ok (deepMerge (initialState cfg) persistedValue)
                       end) in
               modify (set_byKey "entire" hydrated) >> ret merged in
             match validate (hydrateConfig cfg) with
             | Some f =>
                 let* validateResult := call (f raw) in
                 let result := resolveValidateResult validateResult raw in
                 if negb (r_ok result) then
                   modify (set_byKey "entire" discarded) >>
                   ret (initialState cfg)
                 else mergeStep (r_value result)
             | None => mergeStep raw
             end)
          (fun e =>
             modify (set_byKey "entire" error) >>
             onError e >>
             ret (initialState cfg))
  end.

(** The [try] block of one iteration of the loop of [hydrateSlices]. *)
Definition hydrateSlice_try (slice : PersistSlice) (nextState : JValue)
  : M JValue :=
  let key_ := resolveKey cfg KSlice (Some (key slice)) in
  let* raw :=
    match adapter cfg with
    | Some _ => adapter_getItem key_
    | None => ret JUndefined
    end in
  if is_nullish raw then
    modify (set_byKey (key slice) hydrated) >> ret nextState
  else
    let applyStep (persistedValue : JValue) : M JValue :=
      let* applied := call (apply slice nextState persistedValue) in
      modify (set_byKey (key slice) hydrated) >> ret applied in
    match validate (hydrateConfig cfg) with
    | Some f =>
        let* validateResult := call (f raw) in
        let result := resolveValidateResult validateResult raw in
        if negb (r_ok result) then
          modify (set_byKey (key slice) discarded) >> ret nextState
        else applyStep (r_value result)
    | None => applyStep raw
    end.

(** One iteration: the [try] block and its [catch]. *)
Definition hydrateSlice (slice : PersistSlice) (nextState : JValue)
  : M JValue :=
  try_catch (hydrateSlice_try slice nextState)
    (fun e =>
       modify (set_byKey (key slice) error) >>
       onError e >>
       ret nextState).

Fixpoint hydrateSlices_loop (todo : list PersistSlice) (nextState : JValue)
  : M JValue :=
  match todo with
  | [] => ret nextState
  | slice :: rest =>
      let* nextState' := hydrateSlice slice nextState in
      hydrateSlices_loop rest nextState'
  end.

Definition hydrateSlices : M JValue :=
  let* discard := call (shouldDiscardPersisted (hydrateConfig cfg)) in
  if discard then
    for_each (slices cfg)
      (fun slice => modify (set_byKey (key slice) discarded)) >>
    ret (initialState cfg)
  else hydrateSlices_loop (slices cfg) (initialState cfg).

Definition finalizeHydration : M unit :=
  let* st := get in
  let statuses := (map_to_list (byKey st)).*2 in
  if bool_decide (error ∈ statuses) then modify (set_overall error)
  else if bool_decide (discarded ∈ statuses) then
         modify (set_overall discarded)
  else modify (set_overall
                 (match adapter cfg with
                  | Some _ => hydrated
                  | None => not_configured
                  end)).

Definition hydrate : M unit :=
  match adapter cfg with
  | None => modify (set_isReady true) >> modify (settle ReadyResolved)
  | Some _ =>
      try_catch
        (let* hydratedState :=
           match strategy cfg with
           | StrategyEntire => hydrateEntire
           | StrategySlices => hydrateSlices
           end in
         applyState hydratedState >>
         finalizeHydration >>
         modify (set_isReady true) >>
         modify (settle ReadyResolved))
        (fun e =>
           modify (set_overall error) >>
           onError e >>
           modify (settle (ReadyRejected e)))
  end.

(* =================================================================== *)
(** ** The external-event reconciler *)
(* =================================================================== *)

(** The guard of lines 437-442: an echo of the store's own write. *)
Definition recentlyWritten (event : AdapterEvent) (st : Store) : bool :=
  match ev_type event, ev_key event with
  | EvClear, _ | _, None => false
  | _, Some k =>
      truthy_string k &&
      match recentWrites st !! k with
      | Some lastWrite =>
          negb (lastWrite =? 0)%Z &&
          (now w - lastWrite <? recentWriteWindowMs cfg)%Z
      | None => false
      end
  end.

Definition applyExternalState (nextState : JValue) : M unit :=
  modify (set_suppressPersist true) >>
  setState nextState >>
  modify (set_suppressPersist false).

(** The loop of the [clear] branch, lines 463-466. *)
Fixpoint clearSlices_loop (todo : list PersistSlice) (nextState : JValue)
  : M JValue :=
  match todo with
  | [] => ret nextState
  | slice :: rest =>
      let* resetValue := call (select slice (initialState cfg)) in
      let* nextState' := call (apply slice nextState resetValue) in
      clearSlices_loop rest nextState'
  end.

Definition findSlice (unit_ : Unit) : option PersistSlice :=
  List.find (fun candidate =>
               bool_decide (Some (key candidate) = sliceKey unit_))
            (slices cfg).

(** [handleAdapterEvent] from line 444 on, past the guard. *)
Definition processAdapterEvent (event : AdapterEvent) : M unit :=
  match ev_type event with
  | EvClear =>
      match strategy cfg with
      | StrategyEntire => applyExternalState (initialState cfg)
      | StrategySlices =>
          let* nextState :=
            clearSlices_loop (slices cfg) (initialState cfg) in
          applyExternalState nextState
      end
  | type_ =>
      match ev_key event with
      | None => ret tt
      | Some k =>
          if negb (truthy_string k) then ret tt
          else
            match persistenceUnits cfg !! k with
            | None => ret tt
            | Some unit_ =>
                match type_, kind unit_ with
                | EvRemove, KEntire => applyExternalState (initialState cfg)
                | EvRemove, KSlice =>
                    match findSlice unit_ with
                    | Some slice =>
                        let* resetValue :=
                          call (select slice (initialState cfg)) in
                        let* st := get in
                        let* nextState :=
                          call (apply slice (state st) resetValue) in
                        applyExternalState nextState
                    | None => ret tt
                    end
                | _, KEntire =>
                    let* raw := adapter_getItem k in
                    if is_nullish raw then ret tt
                    else
                      let* merged :=
                        call (match merge (hydrateConfig cfg) with
                              | Some m => m (initialState cfg) raw
                              | None => Ok (deepMerge (initialState cfg) raw)
                              end) in
                      applyExternalState merged
                | _, KSlice =>
                    match findSlice unit_ with
                    | None => ret tt
                    | Some slice =>
                        let* raw := adapter_getItem k in
                        if is_nullish raw then ret tt
                        else
                          let* st := get in
                          let* nextState :=
                            call (apply slice (state st) raw) in
                          applyExternalState nextState
                    end
                end
            end
      end
  end.

Definition handleAdapterEvent (event : AdapterEvent) : M unit :=
  match adapter cfg with
  | None => ret tt
  | Some _ =>
      let* st := get in
      if recentlyWritten event st then ret tt
      else processAdapterEvent event
  end.

(** The listener of lines 511-517.  It exists only when the adapter has a
    [subscribe]; no event reaches the store otherwise. *)
Definition adapterListener (event : AdapterEvent) : M unit :=
  match adapter cfg with
  | Some {| has_subscribe := true |} =>
      let* st := get in
      if negb (isReady st) then
        modify (set_pendingAdapterEvents (pendingAdapterEvents st ++ [event]))
      else void (handleAdapterEvent event)
  | _ => ret tt
  end.

(** The callback chained on [hydrate()], lines 569-575. *)
Definition replayPending : M unit :=
  let* st := get in
  match pendingAdapterEvents st with
  | [] => ret tt
  | events =>
      modify (set_pendingAdapterEvents []) >>
      for_each events handleAdapterEvent
  end.

(** [void hydrate().then(...)]: [hydrate] catches all it throws, so the
    promise it returns is fulfilled and the chained callback runs. *)
Definition startup : M unit := hydrate >> void replayPending.

End Engine.

(* ===================================================================== *)
(** ** Construction *)
(* ===================================================================== *)

Definition configError : Exn :=
  JStr "nusm requires a stable storeId or devtools name when persistence is enabled.".

Definition has_storeId (cfg : Config) : bool :=
  match storeId cfg with
  | Some sid => truthy_string sid
  | None => false
  end.

(** The synchronous part of [createNusmStore], up to [subscribeToStore()]. *)
Definition createNusmStore (cfg : Config) : Result Store :=
  match adapter cfg with
  | Some _ =>
      if negb (has_storeId cfg) then Throw configError
      else
        Ok {| state := JUndefined;
              isReady := false;
              suppressPersist := false;
              ready := ReadyPending;
              byKey :=
                match strategy cfg with
                | StrategyEntire => {[ "entire" := pending ]}
                | StrategySlices =>
                    foldl (fun statuses slice =>
                             <[ key slice := pending ]> statuses)
                          ∅ (slices cfg)
                end;
              overall := pending;
              recentWrites := ∅;
              queuedPayloads := [];
              pendingAdapterEvents := [];
              log := [] |}
  | None =>
      Ok {| state := initialState cfg;
            isReady := false;
            suppressPersist := false;
            ready := ReadyPending;
            byKey := ∅;
            overall := not_configured;
            recentWrites := ∅;
            queuedPayloads := [];
            pendingAdapterEvents := [];
            log := [] |}
  end.

(* ===================================================================== *)
(** ** Fixtures: the memory adapter and the field slices of the test suite *)
(* ===================================================================== *)

Module Fixtures.

Definition obj (fields : list (string * JValue)) : JValue :=
  JObj (list_to_map fields).

(** [createMemoryAdapter()] of the tests: name "memory", the default key
    scheme, a [subscribe]. *)
Definition memoryAdapter : NusmAdapter :=
  {| name := "memory";
     adapter_resolveKey := Some defaultResolveKey;
     pacer := None;
     has_subscribe := true |}.

(** Its [getItem]: [store.get(key) ?? null], throwing on [errorKeys]. *)
Definition memoryWorld (store : gmap string JValue)
  (errorKeys : list string) (clock : Z) : World :=
  {| getItem := fun k =>
       if bool_decide (k ∈ errorKeys) then Throw (JStr "getItem failed")
       else Ok (default JNull (store !! k));
     setItem := fun _ _ => Ok tt;
     now := clock;
     setState_throws := fun _ => None;
     Object_is := fun _ _ => false |}.

(** [{ key, select: s => s[key], apply: (s, v) => ({ ...s, [key]: v }) }] *)
Definition fieldSlice (k : string) : PersistSlice :=
  {| key := k;
     select := fun s =>
       match s with
       | JObj fs => Ok (default JUndefined (fs !! k))
       | JUndefined | JNull => Throw (JStr "TypeError")
       | _ => Ok JUndefined
       end;
     apply := fun s v =>
       match s with
       | JObj fs => Ok (JObj (<[k := v]> fs))
       | _ => Ok (JObj {[k := v]})
       end |}.

Definition noHydrate : HydrateConfig :=
  {| validate := None; merge := None; discardPersisted := None |}.

Definition entireConfig (initial : JValue) (h : HydrateConfig) : Config :=
  {| initialState := initial;
     adapter := Some memoryAdapter;
     strategy := StrategyEntire;
     slices := [];
     hydrateConfig := h;
     storeId := Some "s" |}.

Definition slicesConfig (initial : JValue) (names : list string)
  (h : HydrateConfig) : Config :=
  {| initialState := initial;
     adapter := Some memoryAdapter;
     strategy := StrategySlices;
     slices := map fieldSlice names;
     hydrateConfig := h;
     storeId := Some "s" |}.

(** A store past a successful hydration, holding [live]. *)
Definition readyStore (live : JValue) : Store :=
  {| state := live;
     isReady := true;
     suppressPersist := false;
     ready := ReadyResolved;
     byKey := ∅;
     overall := hydrated;
     recentWrites := ∅;
     queuedPayloads := [];
     pendingAdapterEvents := [];
     log := [] |}.

(** The same adapter with pacing disabled, and one named like the
    repository's IndexedDB adapter. *)
Definition immediateAdapter : NusmAdapter :=
  {| name := "memory";
     adapter_resolveKey := Some defaultResolveKey;
     pacer := Some PacerOff;
     has_subscribe := true |}.

Definition indexDbAdapter : NusmAdapter :=
  {| name := "indexdb";
     adapter_resolveKey := Some defaultResolveKey;
     pacer := Some (PacerOn 100 false true);
     has_subscribe := false |}.

Definition withAdapter (a : NusmAdapter) (cfg : Config) : Config :=
  {| initialState := initialState cfg;
     adapter := Some a;
     strategy := strategy cfg;
     slices := slices cfg;
     hydrateConfig := hydrateConfig cfg;
     storeId := storeId cfg |}.

(** The store as [createNusmStore] leaves it before [hydrate()] runs. *)
Definition created (cfg : Config) : Store :=
  match createNusmStore cfg with
  | Ok st => st
  | Throw _ => readyStore JUndefined
  end.

Definition clearEvent : AdapterEvent :=
  {| ev_type := EvClear; ev_key := None |}.
Definition setEvent (k : string) : AdapterEvent :=
  {| ev_type := EvSet; ev_key := Some k |}.

End Fixtures.

(* ===================================================================== *)
(** ** Predicates used by the statements *)
(* ===================================================================== *)

(** The effects that are Persistence Scheduler activity. *)
Definition persistActivity (e : Effect) : bool :=
  match e with
  | ESetItem _ _ | EScheduled _ | EFlushNow | EPacer => true
  | EGetItem _ | EOnError _ => false
  end.

(** A body that neither touches the pending-write queue nor asks for a
    flush, whatever it returns or throws. *)
Definition quiet {A} (m : M A) : Prop :=
  forall st,
    queuedPayloads (exec m st) = queuedPayloads st /\
    List.filter persistActivity (log (exec m st)) =
    List.filter persistActivity (log st).

(** Each slice's projection of [initial] applied onto a running state, slice
    by slice in list order, starting from [start]. *)
Fixpoint resetSlicesFrom (initial : JValue) (todo : list PersistSlice)
  (start : JValue) : Result JValue :=
  match todo with
  | [] => Ok start
  | slice :: rest =>
      match select slice initial with
      | Throw e => Throw e
      | Ok resetValue =>
          match apply slice start resetValue with
          | Throw e => Throw e
          | Ok next => resetSlicesFrom initial rest next
          end
      end
  end.

(** Property access [v[k]]. *)
Definition field (k : string) (v : JValue) : JValue :=
  match v with
  | JObj fs => default JUndefined (fs !! k)
  | _ => JUndefined
  end.

(** The validation of lines 283-298 as one outcome: what [validate] says
    about [raw], normalised; no [validate] accepts [raw] as it is. *)
Definition validateStep (h : HydrateConfig) (raw : JValue) : Result Validated :=
  match validate h with
  | Some f =>
      match f raw with
      | Ok validateResult => Ok (resolveValidateResult validateResult raw)
      | Throw e => Throw e
      end
  | None => Ok {| r_ok := true; r_value := raw |}
  end.

(** The merge expression of lines 300-305 (and 493-498). *)
Definition entireMerge (cfg : Config) (persisted : JValue) : Result JValue :=
  match merge (hydrateConfig cfg) with
  | Some m => m (initialState cfg) persisted
  | None => Ok (deepMerge (initialState cfg) persisted)
  end.

(** The overall status [finalizeHydration] derives from the unit statuses. *)
Definition aggregate (cfg : Config) (statuses : gmap string HydrationState)
  : HydrationState :=
  if bool_decide (error ∈ (map_to_list statuses).*2) then error
  else if bool_decide (discarded ∈ (map_to_list statuses).*2) then discarded
  else match adapter cfg with
       | Some _ => hydrated
       | None => not_configured
       end.

(** What one iteration of the loop of [hydrateSlices] leaves in
    [nextState]: the slice's [apply] of the accepted persisted value, and
    [nextState] itself in every other case. *)
Definition hydratedSliceValue (cfg : Config) (w : World) (slice : PersistSlice)
  (nextState : JValue) : JValue :=
  match match adapter cfg with
        | Some _ => getItem w (resolveKey cfg KSlice (Some (key slice)))
        | None => Ok JUndefined
        end with
  | Throw _ => nextState
  | Ok raw =>
      if is_nullish raw then nextState
      else
        match validateStep (hydrateConfig cfg) raw with
        | Throw _ => nextState
        | Ok result =>
            if r_ok result then
              match apply slice nextState (r_value result) with
              | Ok applied => applied
              | Throw _ => nextState
              end
            else nextState
        end
  end.



(** What [hydrate] awaits at line 409. *)
Definition hydrationOf (cfg : Config) (w : World) : M JValue :=
  match strategy cfg with
  | StrategyEntire => hydrateEntire cfg w
  | StrategySlices => hydrateSlices cfg w
  end.

(** The fields hydration of the units does not write: everything but the
    unit statuses and the log. *)
Definition frame (st : Store) :=
  (state st, isReady st, suppressPersist st, ready st, overall st,
   recentWrites st, queuedPayloads st, pendingAdapterEvents st).

Definition keeps {X A} (proj : Store -> X) (m : M A) : Prop :=
  forall st, proj (exec m st) = proj st.

(** Has the store registered a listener with the adapter (line 510)? *)
Definition subscribed (cfg : Config) : bool :=
  match adapter cfg with
  | Some a => has_subscribe a
  | None => false
  end.

(** Backend events reaching the listener one after the other, each at its
    own moment. *)
Definition deliverAll (cfg : Config) (events : list (World * AdapterEvent))
  (st : Store) : Store :=
  fold_left (fun st we => exec (adapterListener cfg (fst we) (snd we)) st)
            events st.

(** The readiness flag and the Readiness Signal. *)
Definition signal (st : Store) := (isReady st, ready st).

(** The backend reads in a log. *)
Definition isRead (e : Effect) : bool :=
  match e with
  | EGetItem _ => true
  | _ => false
  end.

(* ===================================================================== *)
(** ** Configurations of the counterexamples *)
(* ===================================================================== *)

Module ThrowingDiscard.

(** [discardPersisted: () => { throw "boom" }] *)
Definition hydrateCfg : HydrateConfig :=
  {| validate := None;
     merge := None;
     discardPersisted := Some (DiscardFn (fun _ => Throw (JStr "boom"))) |}.

Definition cfg : Config :=
  Fixtures.entireConfig (Fixtures.obj [("value", JNum 1)]) hydrateCfg.

Definition w : World :=
  Fixtures.memoryWorld
    {[ "nusm:s:entire" := Fixtures.obj [("value", JNum 2)] ]} [] 0.

End ThrowingDiscard.

Module NullingValidate.

(** [validate: () => ({ ok: true, value: null })] *)
Definition hydrateCfg : HydrateConfig :=
  {| validate := Some (fun _ => Ok (VStruct true (Some JNull)));
     merge := None;
     discardPersisted := None |}.

Definition cfg : Config :=
  Fixtures.entireConfig (Fixtures.obj [("value", JNum 0)]) hydrateCfg.

Definition w : World :=
  Fixtures.memoryWorld
    {[ "nusm:s:entire" := Fixtures.obj [("value", JNum 9)] ]} [] 0.

End NullingValidate.

Module FailedThenReplayed.

(** A container whose [setState] throws on a state with [value === 2] (as
    when the application replaces [store.setState], or a subscriber of the
    container throws), and accepts every other state. *)
Definition cfg : Config :=
  Fixtures.entireConfig (Fixtures.obj [("value", JNum 1)]) Fixtures.noHydrate.

Definition w : World :=
  {| getItem := fun _ => Ok (Fixtures.obj [("value", JNum 2)]);
     setItem := fun _ _ => Ok tt;
     now := 0;
     setState_throws := fun v =>
       match field "value" v with
       | JNum 2 => Some (JStr "applyState failed")
       | _ => None
       end;
     Object_is := fun _ _ => false |}.

End FailedThenReplayed.

(* ===================================================================== *)
(** ** The store in use, and what the statements about it need *)
(* ===================================================================== *)

(** What happens to a store once it is constructed: the application calls
    [store.setState], the backend notifies the listener, the debouncer
    calls [flushQueue] (lines 193-195). *)
Inductive Op :=
| OpSetState (v : JValue)
| OpAdapterEvent (event : AdapterEvent)
| OpPacerFires.

Definition step (cfg : Config) (wo : World * Op) (st : Store) : Store :=
  match snd wo with
  | OpSetState v => exec (setState cfg (fst wo) v) st
  | OpAdapterEvent event => exec (adapterListener cfg (fst wo) event) st
  | OpPacerFires => exec (flushQueue cfg (fst wo)) st
  end.

Definition runOps (cfg : Config) (ops : list (World * Op)) (st : Store)
  : Store :=
  fold_left (fun st wo => step cfg wo st) ops st.


(** The unit [persistenceUnits] records for a slice. *)
Definition sliceUnit (slice : PersistSlice) : Unit :=
  {| kind := KSlice; sliceKey := Some (key slice) |}.

(** The backend keys hydration reads, in the order it reads them. *)
Definition hydrationKeys (cfg : Config) : list string :=
  match strategy cfg with
  | StrategyEntire => [resolveKey cfg KEntire None]
  | StrategySlices =>
      map (fun slice => resolveKey cfg KSlice (Some (key slice))) (slices cfg)
  end.


(** The queue entry the subscriber builds under the entire strategy
    (line 236). *)
Definition entireEntry (cfg : Config) (currentVal : JValue) : QueueEntry :=
  {| q_key := resolveKey cfg KEntire None;
     q_kind := KEntire; q_payload := currentVal; q_sliceKey := None |}.

(** The queue entry the subscriber builds for a slice whose projection of
    the new state is [nextSlice] (lines 245-250). *)
Definition sliceEntry (cfg : Config) (slice : PersistSlice)
  (nextSlice : JValue) : QueueEntry :=
  {| q_key := resolveKey cfg KSlice (Some (key slice));
     q_kind := KSlice; q_payload := nextSlice;
     q_sliceKey := Some (key slice) |}.

(** [!Object.is(slice.select(prevVal), slice.select(currentVal))], for
    selectors that return. *)
Definition sliceChanged (w : World) (prevVal currentVal : JValue)
  (slice : PersistSlice) : bool :=
  match select slice prevVal, select slice currentVal with
  | Ok prevSlice, Ok nextSlice => negb (Object_is w prevSlice nextSlice)
  | _, _ => false
  end.

(** The slice's projection of a state, for a selector that returns. *)
Definition selected (slice : PersistSlice) (v : JValue) : JValue :=
  match select slice v with
  | Ok x => x
  | Throw _ => JUndefined
  end.

(** What writing one queued entry adds to the log: the call of
    [adapter.setItem], and the report of its exception if it throws. *)
Definition writeEffects (w : World) (entry : QueueEntry) : list Effect :=
  ESetItem (q_key entry) (q_payload entry) ::
  match setItem w (q_key entry) (q_payload entry) with
  | Ok _ => []
  | Throw e => [EOnError e]
  end.

(** Was an entry for key [k] written successfully? *)
Definition written (w : World) (k : string) (entry : QueueEntry) : bool :=
  String.eqb (q_key entry) k &&
  match setItem w (q_key entry) (q_payload entry) with
  | Ok _ => true
  | Throw _ => false
  end.

(** The callback [flushQueue] maps over the snapshot (lines 161-183). *)
Definition flushEntry (w : World) (kv : string * QueueEntry) : M unit :=
  let entry := snd kv in
  modify (emit (ESetItem (q_key entry) (q_payload entry))) >>
  match setItem w (q_key entry) (q_payload entry) with
  | Ok _ =>
      modify (fun st =>
        set_recentWrites
          (<[ q_key entry := now w ]> (recentWrites st)) st)
  | Throw e => modify (emit (EOnError e))
  end.

(** The application's calls of [store.setState], as transitions. *)
Definition setStateOps (changes : list (World * JValue)) : list (World * Op) :=
  map (fun wv => (fst wv, OpSetState (snd wv))) changes.



(** What hydration decided: the readiness flag, the Readiness Signal and
    the hydration status. *)
Definition verdict (st : Store) :=
  (isReady st, ready st, byKey st, overall st).

(** The verdict and the buffer of early events. *)
Definition bookkeeping (st : Store) := (verdict st, pendingAdapterEvents st).

(** A relation that holds between the store before a body runs and the
    store it leaves, however the body ends. *)
Definition steps {A} (R : Store -> Store -> Prop) (m : M A) : Prop :=
  forall st, R st (exec m st).


(** The log grew by backend reads only. *)
Definition onlyReads (st st' : Store) : Prop :=
  exists reads,
    log st' = (log st ++ reads)%list /\ forallb isRead reads = true.




(* ===================================================================== *)
(** ** [resolveStoreId] *)
(* ===================================================================== *)

(** Strings are taken over the ASCII characters, as for [toLowerCase]
    above.  The white space of [trim] and of [\s] is then tab, line feed,
    vertical tab, form feed, carriage return and space. *)
Definition is_space (c : ascii) : bool :=
  let n := nat_of_ascii c in
  (Nat.leb 9 n && Nat.leb n 13) || Nat.eqb n 32.

(** The class [a-z0-9-_]. *)
Definition is_slug (c : ascii) : bool :=
  let n := nat_of_ascii c in
  (Nat.leb 97 n && Nat.leb n 122) || (Nat.leb 48 n && Nat.leb n 57)
  || Nat.eqb n 45 || Nat.eqb n 95.

Fixpoint all_chars (p : ascii -> bool) (s : string) : bool :=
  match s with
  | EmptyString => true
  | String c rest => p c && all_chars p rest
  end.

Definition ascii_only (s : string) : bool :=
  all_chars (fun c => Nat.ltb (nat_of_ascii c) 128) s.

Fixpoint trimStart (s : string) : string :=
  match s with
  | EmptyString => EmptyString
  | String c rest => if is_space c then trimStart rest else s
  end.

Fixpoint trimEnd (s : string) : string :=
  match s with
  | EmptyString => EmptyString
  | String c rest =>
      match trimEnd rest with
      | EmptyString => if is_space c then EmptyString else String c EmptyString
      | kept => String c kept
      end
  end.

(** [s.trim()] *)
Definition trim (s : string) : string := trimEnd (trimStart s).

(** [s.replace(/\s+/g, "-")]: every maximal run of white space becomes one
    hyphen; [inRun] says that the character before was white space. *)
Fixpoint replaceSpaces (inRun : bool) (s : string) : string :=
  match s with
  | EmptyString => EmptyString
  | String c rest =>
      if is_space c then
        if inRun then replaceSpaces true rest
        else String "-" (replaceSpaces true rest)
      else String c (replaceSpaces false rest)
  end.

(** [s.replace(/[^a-z0-9-_]/g, "")] *)
Fixpoint stripNonSlug (s : string) : string :=
  match s with
  | EmptyString => EmptyString
  | String c rest =>
      if is_slug c then String c (stripNonSlug rest) else stripNonSlug rest
  end.

(** [options?.devtools]: a boolean, or an object with an optional name. *)
Inductive Devtools :=
| DevtoolsFlag (b : bool)
| DevtoolsObject (name : option string).

(** [resolveStoreId(options)], lines 28-42; of the options it reads
    [storeId] and [devtools]. *)
Definition resolveStoreId (storeId : option string)
  (devtools : option Devtools) : option string :=
  let explicit :=
    match storeId with
    | Some sid => truthy_string sid
    | None => false
    end in
  if explicit then storeId
  else
    let devtoolsName :=
      match devtools with
      | Some (DevtoolsObject name) => name
      | _ => None
      end in
    match devtoolsName with
    | Some name =>
        if truthy_string name then
          Some (stripNonSlug
                  (replaceSpaces false (toLowerCase (trim name))))
        else None
    | None => None
    end.

(* ===================================================================== *)
(** ** The storage adapter *)
(* ===================================================================== *)

Module StorageAdapter.

(** The [key] and [newValue] of a [StorageEvent], each [string | null]. *)
Record StorageEvent := {
  se_key : option string;
  se_newValue : option string
}.

(** The items of the [StorageLike] the adapter wraps: [getItem] gives the
    string stored under a key or [null], [setItem] stores one,
    [removeItem] drops one. *)
Definition Storage := gmap string string.

(** [options?.prefix ?? "nusm"], and the two codecs (superjson's unless
    given). *)
Record Options := {
  prefix : string;
  serialize : JValue -> Result string;
  deserialize : string -> Result JValue
}.

Definition resolveKey (o : Options) (storeId : string) (kind : Kind)
  (sliceKey : option string) : string :=
  match kind with
  | KEntire => prefix o ++ ":" ++ storeId ++ ":entire"
  | KSlice =>
      prefix o ++ ":" ++ storeId ++ ":slice:" ++ default "undefined" sliceKey
  end.

(** The listener of the window's "storage" events; [None] when it returns
    without calling the store's listener. *)
Definition handler (o : Options) (event : StorageEvent)
  : option AdapterEvent :=
  match se_key event with
  | None => None
  | Some k =>
      if negb (truthy_string k) then None
      else if negb (String.prefix (prefix o) k) then None
      else
        match se_newValue event with
        | None => Some {| ev_key := Some k; ev_type := EvRemove |}
        | Some _ => Some {| ev_key := Some k; ev_type := EvSet |}
        end
  end.

Definition getItem (o : Options) (storage : Storage) (k : string)
  : Result JValue :=
  match storage !! k with
  | None => Ok JNull
  | Some raw => deserialize o raw
  end.

Definition setItem (o : Options) (k : string) (value : JValue)
  (storage : Storage) : Result unit * Storage :=
  match serialize o value with
  | Ok raw => (Ok tt, <[k := raw]> storage)
  | Throw e => (Throw e, storage)
  end.

Definition removeItem (k : string) (storage : Storage) : Storage :=
  delete k storage.

(** The static part of the adapter [createStorageAdapter] returns. *)
Definition create (name_ : string) (o : Options)
  (pacer_ : option NusmPacerConfig) : NusmAdapter :=
  {| name := name_;
     adapter_resolveKey := Some (resolveKey o);
     pacer := pacer_;
     has_subscribe := true |}.

End StorageAdapter.

(* ===================================================================== *)
(** ** Running the bodies: basic equations *)
(* ===================================================================== *)

Ltac run_monad :=
  cbv [bind ret throw try_catch call get modify void exec outcome
       onError adapter_getItem] in *.

Section BasicRuns.
Variable cfg : Config.
Variable w : World.

  (** With the provenance flag up, the scheduler's subscriber returns at
      line 232. *)
Lemma subscribeToStore_suppressed prevVal currentVal st :
    suppressPersist st = true ->
    subscribeToStore cfg w prevVal currentVal st = (Ok tt, st).
Proof.
    intros Hs. unfold subscribeToStore. run_monad.
    destruct (adapter cfg); [rewrite Hs|]; reflexivity.
Qed.

Lemma applyState_run nextState st :
    applyState cfg w nextState st =
    match setState_throws w nextState with
    | Some e => (Throw e, set_suppressPersist true st)
    | None =>
        (Ok tt,
         set_suppressPersist false
           (set_state nextState (set_suppressPersist true st)))
    end.
Proof.
    unfold applyState, setState.
    destruct (setState_throws w nextState) as [e|]; run_monad; [reflexivity|].
    cbn [state]. rewrite subscribeToStore_suppressed by reflexivity.
    reflexivity.
Qed.

Lemma exec_void (m : M unit) st : exec (void m) st = exec m st.
Proof.
  unfold exec, void, try_catch. destruct (m st) as [[u|e] st']; reflexivity.
Qed.

(** Past readiness the listener hands the event to [handleAdapterEvent]. *)
Lemma adapterListener_ready a ev st :
  adapter cfg = Some a ->
  has_subscribe a = true ->
  isReady st = true ->
  exec (adapterListener cfg w ev) st = exec (handleAdapterEvent cfg w ev) st.
Proof.
  intros Ha Hs Hr. rewrite <- (exec_void (handleAdapterEvent cfg w ev)).
  unfold adapterListener. rewrite Ha. destruct a as [n r p s].
  cbn in Hs. subst s. unfold exec, bind, get. rewrite Hr. reflexivity.
Qed.

Lemma applyExternalState_run nextState st :
    applyExternalState cfg w nextState st = applyState cfg w nextState st.
Proof. reflexivity. Qed.

End BasicRuns.

(* ===================================================================== *)
(** ** Quiet bodies: no Persistence Scheduler activity *)
(* ===================================================================== *)

Section Quiet.
Context {A B : Type}.

Lemma quiet_ret (a : A) : quiet (ret a).
Proof. intros st. split; reflexivity. Qed.

Lemma quiet_throw (e : Exn) : quiet (@throw A e).
Proof. intros st. split; reflexivity. Qed.

Lemma quiet_call (r : Result A) : quiet (call r).
Proof. destruct r; [apply quiet_ret | apply quiet_throw]. Qed.

Lemma quiet_bind (m : M A) (k : A -> M B) :
  quiet m -> (forall a, quiet (k a)) -> quiet (bind m k).
Proof.
  intros Hm Hk st. specialize (Hm st). unfold exec, bind in *.
  destruct (m st) as [[a|e] st1]; cbn [snd] in *; [|exact Hm].
  specialize (Hk a st1). unfold exec in Hk.
  destruct Hm as [Hq Hl], Hk as [Hq' Hl']. split; congruence.
Qed.

Lemma quiet_try_catch (m : M A) (h : Exn -> M A) :
  quiet m -> (forall e, quiet (h e)) -> quiet (try_catch m h).
Proof.
  intros Hm Hh st. specialize (Hm st). unfold exec, try_catch in *.
  destruct (m st) as [[a|e] st1]; cbn [snd] in *; [exact Hm|].
  specialize (Hh e st1). unfold exec in Hh.
  destruct Hm as [Hq Hl], Hh as [Hq' Hl']. split; congruence.
Qed.

End Quiet.

Lemma quiet_get : quiet get.
Proof. intros st. split; reflexivity. Qed.

Lemma quiet_modify (f : Store -> Store) :
  (forall st, queuedPayloads (f st) = queuedPayloads st) ->
  (forall st, List.filter persistActivity (log (f st)) =
              List.filter persistActivity (log st)) ->
  quiet (modify f).
Proof. intros Hq Hl st. split; [apply Hq | apply Hl]. Qed.

Lemma quiet_void (m : M unit) : quiet m -> quiet (void m).
Proof. intros Hm. apply quiet_try_catch; [exact Hm | intros; apply quiet_ret]. Qed.

Lemma quiet_for_each {A} (xs : list A) (body : A -> M unit) :
  (forall x, quiet (body x)) -> quiet (for_each xs body).
Proof.
  intros Hb. induction xs as [|x xs IH]; cbn [for_each].
  - apply quiet_ret.
  - apply quiet_bind; [apply Hb | intros _; exact IH].
Qed.

Lemma filter_emit_silent (e : Effect) (l : list Effect) :
  persistActivity e = false ->
  List.filter persistActivity (l ++ [e]) = List.filter persistActivity l.
Proof.
  intros He. rewrite List.filter_app. cbn [List.filter]. rewrite He.
  apply app_nil_r.
Qed.

Ltac quiet_modify_tac :=
  apply quiet_modify; intros;
  [ reflexivity
  | first [ reflexivity | apply filter_emit_silent; reflexivity ] ].

Ltac quiet_step :=
  first
    [ apply quiet_ret | apply quiet_throw | apply quiet_call | apply quiet_get
    | quiet_modify_tac
    | apply quiet_bind; [|intros ?]
    | apply quiet_try_catch; [|intros ?]
    | apply quiet_void
    | apply quiet_for_each; intros ?
    | match goal with
      | |- quiet (match ?x with _ => _ end) => destruct x
      | |- quiet (if ?x then _ else _) => destruct x
      end ].

Section QuietEngine.
Variable cfg : Config.
Variable w : World.

Lemma quiet_applyState v : quiet (applyState cfg w v).
Proof.
  intros st. unfold exec. rewrite applyState_run.
  destruct (setState_throws w v); split; reflexivity.
Qed.

Lemma quiet_applyExternalState v : quiet (applyExternalState cfg w v).
Proof. exact (quiet_applyState v). Qed.

Lemma quiet_hydrateEntire : quiet (hydrateEntire cfg w).
Proof. unfold hydrateEntire, adapter_getItem, onError. repeat quiet_step. Qed.

Lemma quiet_hydrateSlice s ns : quiet (hydrateSlice cfg w s ns).
Proof.
  unfold hydrateSlice, hydrateSlice_try, adapter_getItem, onError.
  repeat quiet_step.
Qed.

Lemma quiet_hydrateSlices_loop todo ns : quiet (hydrateSlices_loop cfg w todo ns).
Proof.
  revert ns. induction todo as [|s todo IH]; intros ns; cbn [hydrateSlices_loop].
  - apply quiet_ret.
  - apply quiet_bind; [apply quiet_hydrateSlice | intros; apply IH].
Qed.

Lemma quiet_hydrateSlices : quiet (hydrateSlices cfg w).
Proof.
  unfold hydrateSlices.
  apply quiet_bind; [apply quiet_call | intros [|]].
  - repeat quiet_step.
  - apply quiet_hydrateSlices_loop.
Qed.

Lemma quiet_finalizeHydration : quiet (finalizeHydration cfg).
Proof. unfold finalizeHydration. repeat quiet_step. Qed.

Lemma quiet_hydrate : quiet (hydrate cfg w).
Proof.
  unfold hydrate, onError. destruct (adapter cfg); [|repeat quiet_step].
  apply quiet_try_catch; [|intros; repeat quiet_step].
  apply quiet_bind.
  - destruct (strategy cfg); [apply quiet_hydrateEntire | apply quiet_hydrateSlices].
  - intros v. apply quiet_bind; [apply quiet_applyState | intros _].
    apply quiet_bind; [apply quiet_finalizeHydration | intros _].
    repeat quiet_step.
Qed.

Lemma quiet_clearSlices_loop todo ns : quiet (clearSlices_loop cfg todo ns).
Proof.
  revert ns. induction todo as [|s todo IH]; intros ns; cbn [clearSlices_loop].
  - apply quiet_ret.
  - apply quiet_bind; [apply quiet_call | intros ?].
    apply quiet_bind; [apply quiet_call | intros ?]. apply IH.
Qed.

Lemma quiet_processAdapterEvent ev : quiet (processAdapterEvent cfg w ev).
Proof.
  unfold processAdapterEvent, adapter_getItem.
  repeat first
    [ apply quiet_applyExternalState
    | apply quiet_clearSlices_loop
    | quiet_step ].
Qed.

Lemma quiet_handleAdapterEvent ev : quiet (handleAdapterEvent cfg w ev).
Proof.
  unfold handleAdapterEvent.
  repeat first [ apply quiet_processAdapterEvent | quiet_step ].
Qed.

Lemma quiet_adapterListener ev : quiet (adapterListener cfg w ev).
Proof.
  unfold adapterListener.
  repeat first [ apply quiet_handleAdapterEvent | quiet_step ].
Qed.

Lemma quiet_startup : quiet (startup cfg w).
Proof.
  unfold startup, replayPending.
  apply quiet_bind; [apply quiet_hydrate | intros _].
  apply quiet_void. apply quiet_bind; [apply quiet_get | intros st].
  destruct (pendingAdapterEvents st); [apply quiet_ret|].
  apply quiet_bind; [quiet_modify_tac | intros _].
  apply quiet_for_each. intros; apply quiet_handleAdapterEvent.
Qed.

End QuietEngine.

(* ===================================================================== *)
(** ** C8: self-originated assignments stay out of the scheduler *)
(* ===================================================================== *)

(** C8.  Every assignment made through [applyState] (hydration) or
    [applyExternalState] (reconciliation) leaves the pending-write queue and
    the log of effects as they were: nothing is enqueued, no flush is asked
    for, under either strategy.  Hence hydration, the reconciler and the
    replay never produce scheduler activity, and the subscriber enqueues
    only when the provenance flag is down. *)
Theorem applyState_bypasses_scheduler (cfg : Config) (w : World) :
  (forall v st,
      queuedPayloads (exec (applyState cfg w v) st) = queuedPayloads st /\
      log (exec (applyState cfg w v) st) = log st) /\
  (forall v st,
      queuedPayloads (exec (applyExternalState cfg w v) st)
        = queuedPayloads st /\
      log (exec (applyExternalState cfg w v) st) = log st) /\
  quiet (hydrate cfg w) /\
  (forall ev, quiet (handleAdapterEvent cfg w ev)) /\
  (forall ev, quiet (adapterListener cfg w ev)) /\
  quiet (startup cfg w) /\
  (forall prevVal currentVal st,
      suppressPersist st = true ->
      subscribeToStore cfg w prevVal currentVal st = (Ok tt, st)) /\
  (forall prevVal currentVal st,
      exec (subscribeToStore cfg w prevVal currentVal) st <> st ->
      suppressPersist st = false).
Proof.
  assert (Happly : forall v st,
      queuedPayloads (exec (applyState cfg w v) st) = queuedPayloads st /\
      log (exec (applyState cfg w v) st) = log st).
  { intros v st. unfold exec. rewrite applyState_run.
    destruct (setState_throws w v); split; reflexivity. }
  split; [exact Happly|]. split; [exact Happly|].
  split; [apply quiet_hydrate|].
  split; [apply quiet_handleAdapterEvent|].
  split; [apply quiet_adapterListener|].
  split; [apply quiet_startup|].
  split; [apply subscribeToStore_suppressed|].
  intros prevVal currentVal st H.
  destruct (suppressPersist st) eqn:Hs; [|reflexivity].
  unfold exec in H. rewrite subscribeToStore_suppressed in H by exact Hs.
  now contradiction H.
Qed.

(** The flag really is the gate: the same assignment made by the
    application (flag down) is enqueued under the entire unit's key. *)
Example user_setState_is_enqueued :
  let cfg := Fixtures.entireConfig (JNum 0) Fixtures.noHydrate in
  let w := Fixtures.memoryWorld ∅ [] 0 in
  let st' := exec (setState cfg w (JNum 1)) (Fixtures.readyStore (JNum 0)) in
  state st' = JNum 1 /\
  log st' = [EScheduled "nusm:s:entire"; EPacer] /\
  map fst (queuedPayloads st') = ["nusm:s:entire"] /\
  log (exec (applyState cfg w (JNum 1)) (Fixtures.readyStore (JNum 0))) = [].
Proof. vm_compute. repeat split. Qed.

Lemma applyState_bypasses_scheduler_witness :
  subscribeToStore (Fixtures.entireConfig (JNum 0) Fixtures.noHydrate)
    (Fixtures.memoryWorld ∅ [] 0) (JNum 0) (JNum 1)
    (set_suppressPersist true (Fixtures.readyStore (JNum 0)))
  = (Ok tt, set_suppressPersist true (Fixtures.readyStore (JNum 0))).
Proof.
  apply (applyState_bypasses_scheduler
           (Fixtures.entireConfig (JNum 0) Fixtures.noHydrate)
           (Fixtures.memoryWorld ∅ [] 0)).
  reflexivity.
Defined.

(* ===================================================================== *)
(** ** C1: the [clear] event *)
(* ===================================================================== *)

Section Clear.
Variable cfg : Config.
Variable w : World.

Lemma clearSlices_loop_run todo nextState st :
  clearSlices_loop cfg todo nextState st =
  (resetSlicesFrom (initialState cfg) todo nextState, st).
Proof.
  revert nextState. induction todo as [|s todo IH]; intros ns; [reflexivity|].
  cbn [clearSlices_loop resetSlicesFrom]. run_monad.
  destruct (select s (initialState cfg)) as [v|e]; [|reflexivity].
  destruct (apply s ns v) as [ns'|e]; [|reflexivity].
  apply IH.
Qed.

Lemma handleAdapterEvent_clear ev st a :
  adapter cfg = Some a ->
  ev_type ev = EvClear ->
  handleAdapterEvent cfg w ev st =
  match strategy cfg with
  | StrategyEntire => applyState cfg w (initialState cfg) st
  | StrategySlices =>
      match resetSlicesFrom (initialState cfg) (slices cfg) (initialState cfg)
      with
      | Ok v => applyState cfg w v st
      | Throw e => (Throw e, st)
      end
  end.
Proof.
  intros Ha Hc. unfold handleAdapterEvent, recentlyWritten, processAdapterEvent.
  rewrite Ha, Hc. run_monad. destruct (strategy cfg); [reflexivity|].
  rewrite clearSlices_loop_run.
  destruct (resetSlicesFrom _ _ _); reflexivity.
Qed.

End Clear.

(** C1, as stated, fails: under the slice strategy the running state of the
    reset starts from the initial state (line 463), not from the live
    state, so a part of the live state that no slice covers is reset too.
    Here the live [theme] is "dark", no slice covers it, and [clear]
    brings it back to "light". *)
Lemma clear_slices_ignores_live_state :
  let initial :=
    Fixtures.obj [("todos", JArr []); ("theme", JStr "light")] in
  let live :=
    Fixtures.obj [("todos", JArr [JNum 1]); ("theme", JStr "dark")] in
  let cfg := Fixtures.slicesConfig initial ["todos"] Fixtures.noHydrate in
  let w := Fixtures.memoryWorld ∅ [] 0 in
  let st' :=
    exec (handleAdapterEvent cfg w Fixtures.clearEvent)
         (Fixtures.readyStore live) in
  resetSlicesFrom initial (slices cfg) live
    = Ok (Fixtures.obj [("todos", JArr []); ("theme", JStr "dark")]) /\
  state st' = initial /\
  field "theme" (state st') = JStr "light" /\
  Ok (state st') <> resetSlicesFrom initial (slices cfg) live.
Proof.
  cbv zeta. repeat split; try (vm_compute; reflexivity).
  intros H.
  assert (Hf : forall r1 r2 : Result JValue, r1 = r2 ->
            match r1, r2 with
            | Ok a, Ok b => field "theme" a = field "theme" b
            | _, _ => True
            end).
  { intros r1 r2 ->. destruct r2; reflexivity. }
  apply Hf in H. vm_compute in H. discriminate H.
Qed.

(** C1, amended.  A [clear] event replaces the whole state by the original
    initial state under the entire strategy; under the slice strategy the
    new state is obtained from the original initial state (not the live
    state) by applying each slice's projection of the initial state, slice
    by slice in configured order.  In both cases the effect log is left as
    it was (the backend is not read) and the result does not depend on the
    live state. *)
Theorem clear_event_resets_from_initial (cfg : Config) (w : World)
  (a : NusmAdapter) (ev : AdapterEvent) (st : Store) :
  adapter cfg = Some a ->
  ev_type ev = EvClear ->
  (strategy cfg = StrategyEntire ->
   setState_throws w (initialState cfg) = None ->
   state (exec (handleAdapterEvent cfg w ev) st) = initialState cfg) /\
  (forall v,
      strategy cfg = StrategySlices ->
      resetSlicesFrom (initialState cfg) (slices cfg) (initialState cfg)
        = Ok v ->
      setState_throws w v = None ->
      state (exec (handleAdapterEvent cfg w ev) st) = v) /\
  log (exec (handleAdapterEvent cfg w ev) st) = log st /\
  List.filter isRead (log (exec (handleAdapterEvent cfg w ev) st))
    = List.filter isRead (log st) /\
  (has_subscribe a = true ->
   isReady st = true ->
   exec (adapterListener cfg w ev) st = exec (handleAdapterEvent cfg w ev) st).
Proof.
  intros Ha Hc.
  assert (Hlistener : has_subscribe a = true -> isReady st = true ->
            exec (adapterListener cfg w ev) st
            = exec (handleAdapterEvent cfg w ev) st)
    by (intros Hs Hr; exact (adapterListener_ready cfg w a ev st Ha Hs Hr)).
  revert Hlistener.
  unfold exec. rewrite (handleAdapterEvent_clear cfg w ev st a Ha Hc).
  intros Hlistener.
  assert (Hlog : forall v, log (snd (applyState cfg w v st)) = log st).
  { intros v. rewrite applyState_run. destruct (setState_throws w v); reflexivity. }
  assert (Hall : log (snd (match strategy cfg with
     | StrategyEntire => applyState cfg w (initialState cfg) st
     | StrategySlices =>
       match resetSlicesFrom (initialState cfg) (slices cfg) (initialState cfg)
       with
       | Ok v => applyState cfg w v st
       | Throw e => (Throw e, st)
       end
     end)) = log st).
  { destruct (strategy cfg); [apply Hlog|].
    destruct (resetSlicesFrom _ _ _); [apply Hlog | reflexivity]. }
  repeat split.
  - intros Hs Hok. rewrite Hs, applyState_run, Hok. reflexivity.
  - intros v Hs Hv Hok. rewrite Hs, Hv, applyState_run, Hok. reflexivity.
  - exact Hall.
  - now rewrite Hall.
  - exact Hlistener.
Qed.

Lemma clear_event_resets_from_initial_witness :
  state (exec (handleAdapterEvent
                 (Fixtures.slicesConfig
                    (Fixtures.obj [("todos", JArr []); ("theme", JStr "light")])
                    ["todos"] Fixtures.noHydrate)
                 (Fixtures.memoryWorld ∅ [] 0) Fixtures.clearEvent)
              (Fixtures.readyStore
                 (Fixtures.obj [("todos", JArr [JNum 1]);
                                ("theme", JStr "dark")])))
  = Fixtures.obj [("todos", JArr []); ("theme", JStr "light")].
Proof.
  eapply (clear_event_resets_from_initial
            (Fixtures.slicesConfig
               (Fixtures.obj [("todos", JArr []); ("theme", JStr "light")])
               ["todos"] Fixtures.noHydrate)
            (Fixtures.memoryWorld ∅ [] 0) Fixtures.memoryAdapter
            Fixtures.clearEvent).
  - reflexivity.
  - reflexivity.
  - reflexivity.
  - vm_compute. reflexivity.
  - reflexivity.
Defined.

(* ===================================================================== *)
(** ** Hydration as equations *)
(* ===================================================================== *)

Section HydrationRuns.
Variable cfg : Config.
Variable w : World.

Lemma finalizeHydration_run st :
  finalizeHydration cfg st = (Ok tt, set_overall (aggregate cfg (byKey st)) st).
Proof.
  unfold finalizeHydration, aggregate. run_monad.
  repeat case_bool_decide; reflexivity.
Qed.

(** [hydrateEntire] past the discard directive, case by case. *)
Lemma hydrateEntire_run a st :
  adapter cfg = Some a ->
  shouldDiscardPersisted (hydrateConfig cfg) = Ok false ->
  hydrateEntire cfg w st =
  let st1 := emit (EGetItem (resolveKey cfg KEntire None)) st in
  let failed e :=
    (Ok (initialState cfg), emit (EOnError e) (set_byKey "entire" error st1)) in
  match getItem w (resolveKey cfg KEntire None) with
  | Throw e => failed e
  | Ok raw =>
      if is_nullish raw then
        (Ok (initialState cfg), set_byKey "entire" hydrated st1)
      else
        match validateStep (hydrateConfig cfg) raw with
        | Throw e => failed e
        | Ok result =>
            if r_ok result then
              match entireMerge cfg (r_value result) with
              | Ok merged => (Ok merged, set_byKey "entire" hydrated st1)
              | Throw e => failed e
              end
            else (Ok (initialState cfg), set_byKey "entire" discarded st1)
        end
  end.
Proof.
  intros Ha Hd. unfold hydrateEntire, validateStep, entireMerge.
  rewrite Ha, Hd. run_monad.
  destruct (getItem w _) as [raw|e]; [|reflexivity].
  destruct (is_nullish raw); [reflexivity|].
  destruct (validate (hydrateConfig cfg)) as [f|].
  - destruct (f raw) as [vr|e]; [|reflexivity].
    destruct (r_ok (resolveValidateResult vr raw)); cbn [negb]; [|reflexivity].
    destruct (merge (hydrateConfig cfg)) as [m|].
    + destruct (m _ _); reflexivity.
    + reflexivity.
  - cbn [r_ok r_value].
    destruct (merge (hydrateConfig cfg)) as [m|].
    + destruct (m _ _); reflexivity.
    + reflexivity.
Qed.

(** [hydrate] in terms of what the strategy's hydration returns. *)
Lemma hydrate_run a st :
  adapter cfg = Some a ->
  hydrate cfg w st =
  match (match strategy cfg with
         | StrategyEntire => hydrateEntire cfg w
         | StrategySlices => hydrateSlices cfg w
         end) st with
  | (Ok v, st1) =>
      match setState_throws w v with
      | None =>
          let st2 :=
            set_suppressPersist false
              (set_state v (set_suppressPersist true st1)) in
          (Ok tt,
           settle ReadyResolved
             (set_isReady true
                (set_overall (aggregate cfg (byKey st2)) st2)))
      | Some e =>
          (Ok tt,
           settle (ReadyRejected e)
             (emit (EOnError e)
                (set_overall error (set_suppressPersist true st1))))
      end
  | (Throw e, st1) =>
      (Ok tt,
       settle (ReadyRejected e) (emit (EOnError e) (set_overall error st1)))
  end.
Proof.
  intros Ha. unfold hydrate. rewrite Ha. unfold try_catch at 1. unfold bind at 1.
  destruct (match strategy cfg with
            | StrategyEntire => hydrateEntire cfg w
            | StrategySlices => hydrateSlices cfg w
            end st) as [[v|e] st1]; [|reflexivity].
  unfold bind at 1. rewrite applyState_run.
  destruct (setState_throws w v) as [e|]; [reflexivity|].
  unfold bind at 1. rewrite finalizeHydration_run. reflexivity.
Qed.

End HydrationRuns.

(* ===================================================================== *)
(** ** C2: the structural deep merge of the entire strategy *)
(* ===================================================================== *)

Lemma deepMerge_objects_lookup (tm sm : gmap string JValue) (k : string) :
  exists fields,
    deepMerge (JObj tm) (JObj sm) = JObj fields /\
    fields !! k =
      match sm !! k, tm !! k with
      | Some s, Some t => Some (deepMerge t s)
      | Some s, None => Some s
      | None, t => t
      end.
Proof.
  eexists. split; [reflexivity|].
  rewrite lookup_union, map_lookup_imap.
  destruct (sm !! k) as [s|], (tm !! k) as [t|]; reflexivity.
Qed.

(** C2.  Entire-strategy hydration without a caller-supplied merge, on an
    accepted persisted value [v], returns [deepMerge initial v], and that is
    the state once applied.  [deepMerge] merges objects key by key,
    recursively, and replaces an array by the persisted one; on the spec's
    example it yields [{a:1, arr:[9], b:{c:20,d:3}}]. *)
Theorem entire_hydration_deep_merges (cfg : Config) (w : World)
  (a : NusmAdapter) (raw v : JValue) (st : Store) :
  adapter cfg = Some a ->
  strategy cfg = StrategyEntire ->
  merge (hydrateConfig cfg) = None ->
  shouldDiscardPersisted (hydrateConfig cfg) = Ok false ->
  getItem w (resolveKey cfg KEntire None) = Ok raw ->
  is_nullish raw = false ->
  validateStep (hydrateConfig cfg) raw = Ok {| r_ok := true; r_value := v |} ->
  outcome (hydrateEntire cfg w) st = Ok (deepMerge (initialState cfg) v) /\
  byKey (exec (hydrateEntire cfg w) st) !! "entire" = Some hydrated /\
  (setState_throws w (deepMerge (initialState cfg) v) = None ->
   state (exec (hydrate cfg w) st) = deepMerge (initialState cfg) v) /\
  (forall tm sm k,
      field k (deepMerge (JObj tm) (JObj sm)) =
      match sm !! k, tm !! k with
      | Some s, Some t => deepMerge t s
      | Some s, None => s
      | None, t => default JUndefined t
      end) /\
  (forall target items, deepMerge target (JArr items) = JArr items) /\
  deepMerge
    (Fixtures.obj [("a", JNum 1); ("arr", JArr [JNum 1; JNum 2]);
                   ("b", Fixtures.obj [("c", JNum 2); ("d", JNum 3)])])
    (Fixtures.obj [("arr", JArr [JNum 9]);
                   ("b", Fixtures.obj [("c", JNum 20)])])
  = Fixtures.obj [("a", JNum 1); ("arr", JArr [JNum 9]);
                  ("b", Fixtures.obj [("c", JNum 20); ("d", JNum 3)])].
Proof.
  intros Ha Hs Hm Hd Hget Hnull Hval.
  assert (Hrun : hydrateEntire cfg w st =
                 (Ok (deepMerge (initialState cfg) v),
                  set_byKey "entire" hydrated
                    (emit (EGetItem (resolveKey cfg KEntire None)) st))).
  { rewrite (hydrateEntire_run cfg w a st Ha Hd). cbv zeta.
    rewrite Hget, Hnull, Hval. cbn [r_ok r_value].
    unfold entireMerge. rewrite Hm. reflexivity. }
  split; [unfold outcome; now rewrite Hrun|].
  split; [unfold exec; rewrite Hrun; cbn [snd set_byKey byKey];
          apply lookup_insert_eq|].
  split.
  { intros Hok. unfold exec. rewrite (hydrate_run cfg w a st Ha), Hs, Hrun, Hok.
    reflexivity. }
  split.
  { intros tm sm k.
    destruct (deepMerge_objects_lookup tm sm k) as (fields & -> & Hk).
    cbn [field]. rewrite Hk.
    destruct (sm !! k), (tm !! k); reflexivity. }
  split; [reflexivity|].
  vm_compute. reflexivity.
Qed.

Lemma entire_hydration_deep_merges_witness :
  let initial :=
    Fixtures.obj [("a", JNum 1); ("arr", JArr [JNum 1; JNum 2]);
                  ("b", Fixtures.obj [("c", JNum 2); ("d", JNum 3)])] in
  let persisted :=
    Fixtures.obj [("arr", JArr [JNum 9]);
                  ("b", Fixtures.obj [("c", JNum 20)])] in
  let cfg := Fixtures.entireConfig initial Fixtures.noHydrate in
  let w := Fixtures.memoryWorld {[ "nusm:s:entire" := persisted ]} [] 0 in
  state (exec (hydrate cfg w) (Fixtures.created cfg))
  = deepMerge initial persisted.
Proof.
  intros initial persisted cfg w.
  apply (entire_hydration_deep_merges cfg w Fixtures.memoryAdapter
           persisted persisted (Fixtures.created cfg)); reflexivity.
Defined.

(* ===================================================================== *)
(** ** C3: [set] events *)
(* ===================================================================== *)

Section SetEvent.
Variable cfg : Config.
Variable w : World.

Lemma handleAdapterEvent_set_entire a ev k u st :
  adapter cfg = Some a ->
  ev_type ev = EvSet ->
  ev_key ev = Some k ->
  truthy_string k = true ->
  recentlyWritten cfg w ev st = false ->
  persistenceUnits cfg !! k = Some u ->
  kind u = KEntire ->
  handleAdapterEvent cfg w ev st =
  let st1 := emit (EGetItem k) st in
  match getItem w k with
  | Throw e => (Throw e, st1)
  | Ok raw =>
      if is_nullish raw then (Ok tt, st1)
      else match entireMerge cfg raw with
           | Throw e => (Throw e, st1)
           | Ok merged => applyState cfg w merged st1
           end
  end.
Proof.
  intros Ha Ht Hk Htr Hrw Hu Hkind.
  unfold handleAdapterEvent. rewrite Ha. unfold bind at 1, get.
  rewrite Hrw. unfold processAdapterEvent, entireMerge.
  rewrite Ht, Hk, Htr, Hu, Hkind. cbn [negb]. run_monad.
  destruct (getItem w k) as [raw|e]; [|reflexivity].
  destruct (is_nullish raw); [reflexivity|].
  destruct (merge (hydrateConfig cfg)) as [m|].
  - destruct (m _ _); reflexivity.
  - reflexivity.
Qed.


End SetEvent.



(* ===================================================================== *)
(** ** Bodies that keep a part of the store *)
(* ===================================================================== *)

Section Keeps.
Context {X : Type} (proj : Store -> X).

Lemma keeps_ret {A} (a : A) : keeps proj (ret a).
Proof. intros st. reflexivity. Qed.

Lemma keeps_throw {A} (e : Exn) : keeps proj (@throw A e).
Proof. intros st. reflexivity. Qed.

Lemma keeps_call {A} (r : Result A) : keeps proj (call r).
Proof. destruct r; [apply keeps_ret | apply keeps_throw]. Qed.

Lemma keeps_get : keeps proj get.
Proof. intros st. reflexivity. Qed.

Lemma keeps_modify (f : Store -> Store) :
  (forall st, proj (f st) = proj st) -> keeps proj (modify f).
Proof. intros Hf st. apply Hf. Qed.

Lemma keeps_bind {A B} (m : M A) (k : A -> M B) :
  keeps proj m -> (forall a, keeps proj (k a)) -> keeps proj (bind m k).
Proof.
  intros Hm Hk st. specialize (Hm st). unfold exec, bind in *.
  destruct (m st) as [[a|e] st1]; cbn [snd] in *; [|exact Hm].
  rewrite <- Hm. apply (Hk a st1).
Qed.

Lemma keeps_try_catch {A} (m : M A) (h : Exn -> M A) :
  keeps proj m -> (forall e, keeps proj (h e)) -> keeps proj (try_catch m h).
Proof.
  intros Hm Hh st. specialize (Hm st). unfold exec, try_catch in *.
  destruct (m st) as [[a|e] st1]; cbn [snd] in *; [exact Hm|].
  rewrite <- Hm. apply (Hh e st1).
Qed.

Lemma keeps_for_each {A} (xs : list A) (body : A -> M unit) :
  (forall x, keeps proj (body x)) -> keeps proj (for_each xs body).
Proof.
  intros Hb. induction xs as [|x xs IH]; cbn [for_each].
  - apply keeps_ret.
  - apply keeps_bind; [apply Hb | intros _; exact IH].
Qed.

End Keeps.

Ltac keeps_step :=
  first
    [ apply keeps_ret | apply keeps_throw | apply keeps_call | apply keeps_get
    | apply keeps_modify; intros ?; reflexivity
    | apply keeps_bind; [|intros ?]
    | apply keeps_try_catch; [|intros ?]
    | apply keeps_for_each; intros ?
    | match goal with
      | |- keeps _ (match ?x with _ => _ end) => destruct x
      | |- keeps _ (if ?x then _ else _) => destruct x
      end ].

Section SliceRuns.
Variable cfg : Config.
Variable w : World.

Lemma keeps_frame_hydrateEntire : keeps frame (hydrateEntire cfg w).
Proof. unfold hydrateEntire, adapter_getItem, onError. repeat keeps_step. Qed.

Lemma keeps_frame_hydrateSlice s ns : keeps frame (hydrateSlice cfg w s ns).
Proof.
  unfold hydrateSlice, hydrateSlice_try, adapter_getItem, onError.
  repeat keeps_step.
Qed.

Lemma keeps_frame_hydrateSlices_loop todo ns :
  keeps frame (hydrateSlices_loop cfg w todo ns).
Proof.
  revert ns. induction todo as [|s todo IH]; intros ns; cbn [hydrateSlices_loop].
  - apply keeps_ret.
  - apply keeps_bind; [apply keeps_frame_hydrateSlice | intros; apply IH].
Qed.

Lemma keeps_frame_hydrationOf : keeps frame (hydrationOf cfg w).
Proof.
  unfold hydrationOf. destruct (strategy cfg); [apply keeps_frame_hydrateEntire|].
  unfold hydrateSlices.
  apply keeps_bind; [apply keeps_call | intros [|]].
  - repeat keeps_step.
  - apply keeps_frame_hydrateSlices_loop.
Qed.

(** One iteration of the loop of [hydrateSlices], case by case. *)
Lemma hydrateSlice_run a slice nextState st :
  adapter cfg = Some a ->
  hydrateSlice cfg w slice nextState st =
  let k := resolveKey cfg KSlice (Some (key slice)) in
  let st1 := emit (EGetItem k) st in
  let failed e :=
    (Ok nextState, emit (EOnError e) (set_byKey (key slice) error st1)) in
  match getItem w k with
  | Throw e => failed e
  | Ok raw =>
      if is_nullish raw then (Ok nextState, set_byKey (key slice) hydrated st1)
      else
        match validateStep (hydrateConfig cfg) raw with
        | Throw e => failed e
        | Ok result =>
            if r_ok result then
              match apply slice nextState (r_value result) with
              | Ok applied => (Ok applied, set_byKey (key slice) hydrated st1)
              | Throw e => failed e
              end
            else (Ok nextState, set_byKey (key slice) discarded st1)
        end
  end.
Proof.
  intros Ha. unfold hydrateSlice, hydrateSlice_try, validateStep.
  rewrite Ha. run_monad.
  destruct (getItem w _) as [raw|e]; [|reflexivity].
  destruct (is_nullish raw); [reflexivity|].
  destruct (validate (hydrateConfig cfg)) as [f|].
  - destruct (f raw) as [vr|e]; [|reflexivity].
    destruct (r_ok (resolveValidateResult vr raw)); cbn [negb]; [|reflexivity].
    destruct (apply slice nextState _); reflexivity.
  - cbn [r_ok r_value].
    destruct (apply slice nextState raw); reflexivity.
Qed.

Lemma hydrateSlice_outcome a slice nextState st :
  adapter cfg = Some a ->
  outcome (hydrateSlice cfg w slice nextState) st =
  Ok (hydratedSliceValue cfg w slice nextState).
Proof.
  intros Ha. unfold outcome, hydratedSliceValue.
  rewrite (hydrateSlice_run a slice nextState st Ha), Ha. cbv zeta.
  destruct (getItem w _) as [raw|e]; [|reflexivity].
  destruct (is_nullish raw); [reflexivity|].
  destruct (validateStep _ raw) as [r|e]; [|reflexivity].
  destruct (r_ok r); [|reflexivity].
  destruct (apply slice nextState _); reflexivity.
Qed.

Lemma hydrateSlices_loop_outcome a todo nextState st :
  adapter cfg = Some a ->
  outcome (hydrateSlices_loop cfg w todo nextState) st =
  Ok (fold_left (fun ns slice => hydratedSliceValue cfg w slice ns)
                todo nextState).
Proof.
  intros Ha. revert nextState st.
  induction todo as [|s todo IH]; intros ns st; [reflexivity|].
  cbn [hydrateSlices_loop fold_left]. unfold outcome, bind.
  pose proof (hydrateSlice_outcome a s ns st Ha) as Hs. unfold outcome in Hs.
  destruct (hydrateSlice cfg w s ns st) as [r st1]. cbn [fst] in Hs.
  rewrite Hs. apply IH.
Qed.



End SliceRuns.

(* ===================================================================== *)
(** ** C4: the Recent Write Ledger *)
(* ===================================================================== *)

(** C4.  A non-[clear] event whose key has a ledger entry younger than the
    suppression window is ignored: the store is left exactly as it was.
    Once the window has elapsed the event is processed as if there were no
    entry.  The window is 1000 ms when the adapter's name, lower-cased,
    contains "index", and 500 ms otherwise.  (A ledger entry is a value of
    [Date.now()]; the code tests [lastWrite &&], so it is taken non-zero.) *)
Theorem recent_write_suppresses_event (cfg : Config) (w : World)
  (a : NusmAdapter) (ev : AdapterEvent) (k : string) (lastWrite : Z)
  (st : Store) :
  adapter cfg = Some a ->
  ev_type ev <> EvClear ->
  ev_key ev = Some k ->
  recentWrites st !! k = Some lastWrite ->
  lastWrite <> 0 ->
  (now w - lastWrite < recentWriteWindowMs cfg ->
   handleAdapterEvent cfg w ev st = (Ok tt, st)) /\
  (recentWriteWindowMs cfg <= now w - lastWrite ->
   handleAdapterEvent cfg w ev st = processAdapterEvent cfg w ev st) /\
  recentWriteWindowMs cfg =
    (if includes "index" (toLowerCase (name a)) then 1000 else 500).
Proof.
  intros Ha Ht Hk Hl Hnz.
  assert (Hrw : recentlyWritten cfg w ev st =
                (truthy_string k &&
                 (now w - lastWrite <? recentWriteWindowMs cfg)%Z)%bool).
  { unfold recentlyWritten. rewrite Hk, Hl.
    destruct (Z.eqb_spec lastWrite 0) as [->|_]; [contradiction|].
    destruct (ev_type ev); [reflexivity | reflexivity | contradiction]. }
  split; [|split].
  - intros Hlt. unfold handleAdapterEvent. rewrite Ha. run_monad. rewrite Hrw.
    destruct (truthy_string k) eqn:Htr; cbn [andb].
    + destruct (Z.ltb_spec (now w - lastWrite) (recentWriteWindowMs cfg));
        [reflexivity | lia].
    + unfold processAdapterEvent. rewrite Hk, Htr.
      destruct (ev_type ev); [reflexivity | reflexivity | contradiction].
  - intros Hge. unfold handleAdapterEvent. rewrite Ha. run_monad. rewrite Hrw.
    destruct (Z.ltb_spec (now w - lastWrite) (recentWriteWindowMs cfg));
      [lia|]. rewrite andb_false_r. reflexivity.
  - unfold recentWriteWindowMs. rewrite Ha. reflexivity.
Qed.

Example recentWriteWindowMs_values :
  let cfg := Fixtures.entireConfig (JNum 0) Fixtures.noHydrate in
  recentWriteWindowMs cfg = 500 /\
  recentWriteWindowMs (Fixtures.withAdapter Fixtures.indexDbAdapter cfg)
    = 1000 /\
  includes "index" (toLowerCase "IndexedDB") = true /\
  includes "index" (toLowerCase "localStorage") = false /\
  includes "index" (toLowerCase "sessionStorage") = false.
Proof. vm_compute. repeat split. Qed.

(** The test "ignores external event after recent write": with pacing
    disabled the application's write is flushed at once, at time 1000; the
    echo at 1010 is ignored, the same event at 1500 is applied. *)
Example echo_of_own_write :
  let cfg := Fixtures.withAdapter Fixtures.immediateAdapter
               (Fixtures.entireConfig (Fixtures.obj [("value", JNum 0)])
                  Fixtures.noHydrate) in
  let backend :=
    {[ "nusm:s:entire" := Fixtures.obj [("value", JNum 1)] ]} in
  let st1 :=
    exec (setState cfg (Fixtures.memoryWorld backend [] 1000)
            (Fixtures.obj [("value", JNum 2)]))
         (Fixtures.readyStore (Fixtures.obj [("value", JNum 0)])) in
  let ev := Fixtures.setEvent "nusm:s:entire" in
  recentWrites st1 !! "nusm:s:entire" = Some 1000 /\
  exec (adapterListener cfg (Fixtures.memoryWorld backend [] 1010) ev) st1
    = st1 /\
  state (exec (adapterListener cfg (Fixtures.memoryWorld backend [] 1500) ev)
              st1)
    = Fixtures.obj [("value", JNum 1)].
Proof. vm_compute. repeat split. Qed.

Lemma recent_write_suppresses_event_witness :
  let cfg := Fixtures.entireConfig (JNum 0) Fixtures.noHydrate in
  let st := set_recentWrites {[ "nusm:s:entire" := 1000 ]}
              (Fixtures.readyStore (JNum 2)) in
  handleAdapterEvent cfg (Fixtures.memoryWorld ∅ [] 1200)
    (Fixtures.setEvent "nusm:s:entire") st = (Ok tt, st).
Proof.
  intros cfg st.
  apply (recent_write_suppresses_event cfg (Fixtures.memoryWorld ∅ [] 1200)
           Fixtures.memoryAdapter (Fixtures.setEvent "nusm:s:entire")
           "nusm:s:entire" 1000 st).
  - reflexivity.
  - discriminate.
  - reflexivity.
  - reflexivity.
  - discriminate.
  - reflexivity.
Defined.

(* ===================================================================== *)
(** ** C5: exceptions are caught unit by unit *)
(* ===================================================================== *)

Lemma frame_ready st st' : frame st' = frame st -> ready st' = ready st.
Proof. unfold frame. intros H. injection H. auto. Qed.

Lemma frame_isReady st st' : frame st' = frame st -> isReady st' = isReady st.
Proof. unfold frame. intros H. injection H. auto. Qed.


Lemma frame_pending st st' :
  frame st' = frame st -> pendingAdapterEvents st' = pendingAdapterEvents st.
Proof. unfold frame. intros H. injection H. auto. Qed.


Section UnitErrors.
Variable cfg : Config.
Variable w : World.
Variable a : NusmAdapter.
Hypothesis Ha : adapter cfg = Some a.




End UnitErrors.



Example slice_error_scenario :
  let initial := Fixtures.obj [("prefs", JStr "light"); ("todos", JArr [])] in
  let cfg := Fixtures.slicesConfig initial ["prefs"; "todos"]
               Fixtures.noHydrate in
  let w := Fixtures.memoryWorld
             {[ "nusm:s:slice:todos" := JArr [JNum 1] ]}
             ["nusm:s:slice:prefs"] 0 in
  let st' := exec (hydrate cfg w) (Fixtures.created cfg) in
  state st' = Fixtures.obj [("prefs", JStr "light");
                            ("todos", JArr [JNum 1])] /\
  byKey st' !! "prefs" = Some error /\
  byKey st' !! "todos" = Some hydrated /\
  overall st' = error /\
  ready st' = ReadyResolved /\
  isReady st' = true /\
  log st' = [EGetItem "nusm:s:slice:prefs"; EOnError (JStr "getItem failed");
             EGetItem "nusm:s:slice:todos"].
Proof. vm_compute. repeat split. Qed.

(* ===================================================================== *)
(** ** C6: when the Readiness Signal fails *)
(* ===================================================================== *)




(* ===================================================================== *)
(** ** C7: validation *)
(* ===================================================================== *)




(* ===================================================================== *)
(** ** The listener, the replay and the readiness flag *)
(* ===================================================================== *)

Section Listener.
Variable cfg : Config.

Lemma adapterListener_not_ready w ev st :
  isReady st = false ->
  adapterListener cfg w ev st =
  (Ok tt,
   if subscribed cfg then
     set_pendingAdapterEvents (pendingAdapterEvents st ++ [ev]) st
   else st).
Proof.
  intros Hr. unfold adapterListener, subscribed.
  destruct (adapter cfg) as [[n r p [|]]|]; try reflexivity.
  run_monad. rewrite Hr. reflexivity.
Qed.

Lemma set_pendingAdapterEvents_same st :
  set_pendingAdapterEvents (pendingAdapterEvents st) st = st.
Proof. destruct st; reflexivity. Qed.

Lemma deliverAll_cons w ev events st :
  deliverAll cfg ((w, ev) :: events) st =
  deliverAll cfg events (exec (adapterListener cfg w ev) st).
Proof. reflexivity. Qed.

(** While the readiness flag is down, events only pile up in the buffer. *)
Lemma deliverAll_not_ready events st :
  isReady st = false ->
  deliverAll cfg events st =
  if subscribed cfg then
    set_pendingAdapterEvents (pendingAdapterEvents st ++ map snd events) st
  else st.
Proof.
  revert st. induction events as [|[w ev] events IH]; intros st Hr.
  - cbn [deliverAll fold_left map]. rewrite app_nil_r.
    rewrite set_pendingAdapterEvents_same. now destruct (subscribed cfg).
  - rewrite deliverAll_cons. cbn [map snd].
    unfold exec. rewrite (adapterListener_not_ready w ev st Hr). cbn [snd].
    rewrite IH by (destruct (subscribed cfg); exact Hr).
    destruct (subscribed cfg); [|reflexivity].
    cbn [set_pendingAdapterEvents pendingAdapterEvents].
    rewrite <- app_assoc. reflexivity.
Qed.

Variable w : World.

Lemma keeps_signal_flushQueue : keeps signal (flushQueue cfg w).
Proof. unfold flushQueue. repeat keeps_step. Qed.

Lemma keeps_signal_enqueuePersist entry : keeps signal (enqueuePersist cfg w entry).
Proof.
  unfold enqueuePersist, scheduleFlush, void.
  repeat first [ apply keeps_signal_flushQueue | keeps_step ].
Qed.

Lemma keeps_signal_setState v : keeps signal (setState cfg w v).
Proof.
  unfold setState, subscribeToStore.
  repeat first [ apply keeps_signal_enqueuePersist | keeps_step ].
Qed.

Lemma keeps_signal_applyExternalState v :
  keeps signal (applyExternalState cfg w v).
Proof.
  unfold applyExternalState.
  repeat first [ apply keeps_signal_setState | keeps_step ].
Qed.

Lemma keeps_signal_clearSlices_loop todo ns :
  keeps signal (clearSlices_loop cfg todo ns).
Proof.
  intros st. unfold exec. now rewrite clearSlices_loop_run.
Qed.

Lemma keeps_signal_handleAdapterEvent ev :
  keeps signal (handleAdapterEvent cfg w ev).
Proof.
  unfold handleAdapterEvent, processAdapterEvent, adapter_getItem.
  repeat first
    [ apply keeps_signal_applyExternalState
    | apply keeps_signal_clearSlices_loop
    | keeps_step ].
Qed.

Lemma keeps_signal_replayPending : keeps signal (void (replayPending cfg w)).
Proof.
  unfold replayPending, void.
  repeat first [ apply keeps_signal_handleAdapterEvent | keeps_step ].
Qed.

Lemma hydrate_returns st : exists st', hydrate cfg w st = (Ok tt, st').
Proof.
  destruct (adapter cfg) as [a|] eqn:Ha.
  - rewrite (hydrate_run cfg w a st Ha).
    destruct (_ st) as [[v|e] st1]; [|eauto].
    destruct (setState_throws w v); eauto.
  - unfold hydrate. rewrite Ha. run_monad. eauto.
Qed.

Lemma startup_exec st :
  exec (startup cfg w) st =
  exec (void (replayPending cfg w)) (exec (hydrate cfg w) st).
Proof.
  unfold startup, exec, bind.
  destruct (hydrate_returns st) as [st' ->]. reflexivity.
Qed.

Lemma startup_signal st :
  signal (exec (startup cfg w) st) = signal (exec (hydrate cfg w) st).
Proof. rewrite startup_exec. apply keeps_signal_replayPending. Qed.

End Listener.

(* ===================================================================== *)
(** ** C9: what the container holds before hydration *)
(* ===================================================================== *)



(* ===================================================================== *)
(** ** C10: backend events after a failed readiness *)
(* ===================================================================== *)

(** C10, as stated, fails for the events buffered before the failure.
    [hydrate] catches what it throws (lines 421-431), so the promise it
    returns is fulfilled and the callback chained at line 569 runs after a
    failed hydration too: it empties the buffer through
    [handleAdapterEvent], which does not look at the readiness flag.  Here
    the persisted [{value: 2}] cannot be applied, [ready] is rejected, and
    the [clear] event buffered during hydration is replayed: the container
    goes from [undefined] to the initial [{value: 1}]. *)
Lemma buffered_event_replayed_after_failure :
  let cfg := FailedThenReplayed.cfg in
  let w := FailedThenReplayed.w in
  let st1 := deliverAll cfg [(w, Fixtures.clearEvent)] (Fixtures.created cfg) in
  let st2 := exec (startup cfg w) st1 in
  state st1 = JUndefined /\
  pendingAdapterEvents st1 = [Fixtures.clearEvent] /\
  ready st2 = ReadyRejected (JStr "applyState failed") /\
  isReady st2 = false /\
  pendingAdapterEvents st2 = [] /\
  state st2 = Fixtures.obj [("value", JNum 1)] /\
  state st2 <> state st1.
Proof.
  cbv zeta. repeat split; try (vm_compute; reflexivity).
  vm_compute. discriminate.
Qed.

(** C10, amended.  If the Readiness Signal settles with failure, the
    readiness flag is still down after the startup (hydration and replay)
    and stays down: every backend event that arrives from then on is
    appended to the buffer and leaves the rest of the store, the state
    included, as it was. *)
Theorem failed_readiness_keeps_buffering (cfg : Config) (w : World)
  (a : NusmAdapter) (st : Store) (e : Exn) :
  adapter cfg = Some a ->
  isReady st = false ->
  ready st = ReadyPending ->
  ready (exec (hydrate cfg w) st) = ReadyRejected e ->
  let st1 := exec (startup cfg w) st in
  isReady st1 = false /\
  ready st1 = ReadyRejected e /\
  (forall events,
      let st2 := deliverAll cfg events st1 in
      isReady st2 = false /\
      ready st2 = ReadyRejected e /\
      state st2 = state st1 /\
      log st2 = log st1 /\
      pendingAdapterEvents st2 =
        if has_subscribe a then
          (pendingAdapterEvents st1 ++ map snd events)%list
        else pendingAdapterEvents st1).
Proof.
  intros Ha Hi Hp Hrej. cbv zeta.
  assert (Hsig : signal (exec (startup cfg w) st) = (false, ReadyRejected e)).
  { rewrite startup_signal. unfold signal. rewrite Hrej. f_equal.
    pose proof (keeps_frame_hydrationOf cfg w st) as Hf.
    unfold exec in *. rewrite (hydrate_run cfg w a st Ha) in *.
    fold (hydrationOf cfg w) in *.
    destruct (hydrationOf cfg w st) as [[v|e1] st1]; cbn [snd] in Hf.
    - destruct (setState_throws w v) as [e2|].
      + cbn. rewrite (frame_isReady _ _ Hf). exact Hi.
      + cbn in Hrej. rewrite (frame_ready _ _ Hf), Hp in Hrej. discriminate.
    - cbn. rewrite (frame_isReady _ _ Hf). exact Hi. }
  unfold signal in Hsig. injection Hsig as Hi1 Hr1.
  split; [exact Hi1|]. split; [exact Hr1|].
  intros events. rewrite (deliverAll_not_ready cfg events _ Hi1).
  unfold subscribed. rewrite Ha.
  destruct (has_subscribe a); repeat split; assumption.
Qed.

(** The application-failure scenario, followed by two more events. *)
Lemma failed_readiness_keeps_buffering_witness :
  let cfg := FailedThenReplayed.cfg in
  let w := FailedThenReplayed.w in
  let st1 := exec (startup cfg w) (Fixtures.created cfg) in
  pendingAdapterEvents
    (deliverAll cfg [(w, Fixtures.setEvent "nusm:s:entire");
                     (w, Fixtures.clearEvent)] st1)
  = (pendingAdapterEvents st1 ++
     [Fixtures.setEvent "nusm:s:entire"; Fixtures.clearEvent])%list.
Proof.
  intros cfg w st1.
  refine (proj2 (proj2 (proj2 (proj2 (proj2 (proj2
    (failed_readiness_keeps_buffering cfg w Fixtures.memoryAdapter
       (Fixtures.created cfg) (JStr "applyState failed") _ _ _ _))
    [(w, Fixtures.setEvent "nusm:s:entire"); (w, Fixtures.clearEvent)])))));
    reflexivity.
Defined.

(* ===================================================================== *)
(** ** Further properties of the engine *)
(* ===================================================================== *)

(** *** Construction *)

Lemma foldl_insert_lookup {V} (l : list (string * V)) (m : gmap string V)
  (k : string) (v : V) :
  foldl (fun acc kv => <[fst kv := snd kv]> acc) m l !! k = Some v ->
  (k, v) ∈ l \/ (m !! k = Some v /\ k ∉ l.*1).
Proof.
  induction l as [|[k' v'] l IH] using rev_ind; intros H.
  - right. split; [exact H | apply not_elem_of_nil].
  - rewrite foldl_snoc in H. cbn [fst snd] in H.
    rewrite fmap_app, !elem_of_app. cbn.
    destruct (decide (k' = k)) as [->|Hne].
    + rewrite lookup_insert_eq in H. injection H as ->.
      left. right. apply list_elem_of_singleton. reflexivity.
    + rewrite lookup_insert_ne in H by exact Hne.
      destruct (IH H) as [Hin | [Hm Hnot]]; [auto|].
      right. split; [exact Hm|]. intros [Hin|Hin]; [contradiction|].
      apply list_elem_of_singleton in Hin. congruence.
Qed.

Lemma foldl_insert_is_Some {V} (l : list (string * V)) (m : gmap string V)
  (k : string) :
  k ∈ l.*1 -> is_Some (foldl (fun acc kv => <[fst kv := snd kv]> acc) m l !! k).
Proof.
  induction l as [|[k' v'] l IH] using rev_ind; intros H.
  - now apply elem_of_nil in H.
  - rewrite foldl_snoc. cbn [fst snd].
    destruct (decide (k' = k)) as [->|Hne].
    + rewrite lookup_insert_eq. eauto.
    + rewrite lookup_insert_ne by exact Hne. apply IH.
      rewrite fmap_app, elem_of_app in H. destruct H as [H|H]; [exact H|].
      apply list_elem_of_singleton in H. cbn in H. congruence.
Qed.





(** *** Keys and units *)

Lemma append_cancel_l (p a b : string) : (p ++ a = p ++ b)%string -> a = b.
Proof. induction p as [|c p IH]; cbn; [auto | intros [= H]; auto]. Qed.

Lemma append_assoc (a b c : string) :
  ((a ++ b) ++ c = a ++ (b ++ c))%string.
Proof.
  induction a as [|x a IH]; [reflexivity|].
  change (String x ((a ++ b) ++ c) = String x (a ++ (b ++ c)))%string.
  now rewrite IH.
Qed.

Lemma defaultResolveKey_slice_inj (storeId k1 k2 : string) :
  defaultResolveKey storeId KSlice (Some k1)
  = defaultResolveKey storeId KSlice (Some k2) -> k1 = k2.
Proof.
  unfold defaultResolveKey. cbn [default]. intros H.
  apply (append_cancel_l "nusm:") in H.
  apply append_cancel_l in H. now apply (append_cancel_l ":slice:") in H.
Qed.

(** X2.  Under the default key scheme the units of one store never share a
    backend key: two slices with the same key have the same slice key, and
    the entire unit's key is no slice's key.  Across stores the scheme can
    collide: the entire unit of store [id:slice:k] and the slice [k:entire]
    of store [id] have the same key. *)
Theorem default_keys_within_a_store (storeId k1 k2 : string) :
  (defaultResolveKey storeId KSlice (Some k1)
   = defaultResolveKey storeId KSlice (Some k2) -> k1 = k2) /\
  defaultResolveKey storeId KEntire None
    <> defaultResolveKey storeId KSlice (Some k1) /\
  defaultResolveKey (storeId ++ ":slice:" ++ k1) KEntire None
    = defaultResolveKey storeId KSlice (Some (k1 ++ ":entire")).
Proof.
  split; [apply defaultResolveKey_slice_inj|].
  unfold defaultResolveKey. cbn [default]. split.
  - intros H. apply (append_cancel_l "nusm:") in H.
    apply append_cancel_l in H. discriminate H.
  - rewrite !append_assoc. reflexivity.
Qed.

Lemma default_keys_within_a_store_witness :
  "prefs" = "prefs".
Proof.
  apply (default_keys_within_a_store "store" "prefs" "prefs"). reflexivity.
Defined.

Section Units.
Variable cfg : Config.

Lemma persistenceUnits_slices a :
  adapter cfg = Some a ->
  strategy cfg = StrategySlices ->
  persistenceUnits cfg =
  foldl (fun acc kv => <[fst kv := snd kv]> acc) ∅
        (map (fun slice => (resolveKey cfg KSlice (Some (key slice)),
                            sliceUnit slice)) (slices cfg)).
Proof.
  intros Ha Hs. unfold persistenceUnits. rewrite Ha, Hs.
  generalize (∅ : gmap string Unit).
  induction (slices cfg) as [|s l IH]; intros m; [reflexivity|].
  cbn. apply IH.
Qed.

Lemma findSlice_sliceUnit slice :
  slice ∈ slices cfg ->
  exists first,
    findSlice cfg (sliceUnit slice) = Some first /\ key first = key slice.
Proof.
  intros Hin. unfold findSlice, sliceUnit. cbn [sliceKey].
  destruct (List.find _ (slices cfg)) as [first|] eqn:Hfind.
  - exists first. split; [reflexivity|].
    apply List.find_some in Hfind as [_ Hp].
    apply bool_decide_eq_true_1 in Hp. now injection Hp.
  - apply list_elem_of_In in Hin.
    pose proof (List.find_none _ _ Hfind slice Hin) as Hp. cbn in Hp.
    apply bool_decide_eq_false_1 in Hp. contradiction.
Qed.

End Units.

(** X3.  Under the slice strategy, with a key resolver that separates the
    configured slice keys, [persistenceUnits] maps the backend key of every
    configured slice to that slice's unit and holds nothing else; looking
    the unit's slice up again finds a slice with that slice key (the first
    so named). *)
Theorem slice_keys_route_to_their_slice (cfg : Config) (a : NusmAdapter) :
  adapter cfg = Some a ->
  strategy cfg = StrategySlices ->
  (forall s1 s2,
      s1 ∈ slices cfg -> s2 ∈ slices cfg ->
      resolveKey cfg KSlice (Some (key s1))
      = resolveKey cfg KSlice (Some (key s2)) ->
      key s1 = key s2) ->
  (forall slice,
      slice ∈ slices cfg ->
      persistenceUnits cfg !! resolveKey cfg KSlice (Some (key slice))
      = Some (sliceUnit slice) /\
      exists first,
        findSlice cfg (sliceUnit slice) = Some first /\
        key first = key slice) /\
  (forall k u,
      persistenceUnits cfg !! k = Some u ->
      exists slice,
        slice ∈ slices cfg /\
        k = resolveKey cfg KSlice (Some (key slice)) /\
        u = sliceUnit slice).
Proof.
  intros Ha Hs Hinj.
  assert (Hall : forall k u,
      persistenceUnits cfg !! k = Some u ->
      exists slice,
        slice ∈ slices cfg /\
        k = resolveKey cfg KSlice (Some (key slice)) /\
        u = sliceUnit slice).
  { intros k u Hk. rewrite (persistenceUnits_slices cfg a Ha Hs) in Hk.
    apply foldl_insert_lookup in Hk as [Hin | [Hm _]].
    - apply list_elem_of_fmap in Hin as (s & [= -> ->] & Hin). eauto.
    - now rewrite lookup_empty in Hm. }
  split; [|exact Hall].
  intros slice Hin. split; [|now apply findSlice_sliceUnit].
  destruct (foldl_insert_is_Some
              (map (fun s => (resolveKey cfg KSlice (Some (key s)),
                              sliceUnit s)) (slices cfg)) ∅
              (resolveKey cfg KSlice (Some (key slice)))) as [u Hu].
  { rewrite <- list_fmap_compose.
    apply (list_elem_of_fmap_2
             (fun s => resolveKey cfg KSlice (Some (key s)))). exact Hin. }
  rewrite <- (persistenceUnits_slices cfg a Ha Hs) in Hu. rewrite Hu.
  destruct (Hall _ _ Hu) as (s' & Hin' & Hk & ->).
  unfold sliceUnit. now rewrite (Hinj _ _ Hin Hin' Hk).
Qed.

Lemma slice_keys_route_to_their_slice_witness :
  let cfg := Fixtures.slicesConfig (JNum 0) ["todos"; "prefs"]
               Fixtures.noHydrate in
  persistenceUnits cfg !! "nusm:s:slice:prefs"
  = Some (sliceUnit (Fixtures.fieldSlice "prefs")).
Proof.
  intros cfg.
  refine (proj1 (proj1
    (slice_keys_route_to_their_slice cfg Fixtures.memoryAdapter _ _ _)
    (Fixtures.fieldSlice "prefs") _)).
  - reflexivity.
  - reflexivity.
  - intros s1 s2 _ _ H.
    exact (defaultResolveKey_slice_inj _ _ _ H).
  - apply list_elem_of_In. right. left. reflexivity.
Defined.

(** *** Events the reconciler drops, and [remove] *)

(** X4.  A [set] or [remove] event that carries no key, an empty key, or a
    key that is not the backend key of one of the store's units is dropped:
    [handleAdapterEvent] returns without reading the backend and leaves the
    store exactly as it was, and so does the listener of a ready store. *)
Theorem unrecognised_event_is_ignored (cfg : Config) (w : World)
  (ev : AdapterEvent) (st : Store) :
  ev_type ev <> EvClear ->
  (ev_key ev = None \/
   ev_key ev = Some "" \/
   exists k, ev_key ev = Some k /\ persistenceUnits cfg !! k = None) ->
  handleAdapterEvent cfg w ev st = (Ok tt, st) /\
  (isReady st = true -> adapterListener cfg w ev st = (Ok tt, st)).
Proof.
  intros Ht Hk.
  assert (Hproc : processAdapterEvent cfg w ev st = (Ok tt, st)).
  { unfold processAdapterEvent.
    destruct (ev_type ev); try contradiction;
      destruct Hk as [-> | [-> | (k & -> & Hu)]]; try reflexivity;
      rewrite Hu; destruct (negb (truthy_string k)); reflexivity. }
  assert (Hh : handleAdapterEvent cfg w ev st = (Ok tt, st)).
  { unfold handleAdapterEvent. destruct (adapter cfg); [|reflexivity].
    run_monad. destruct (recentlyWritten cfg w ev st); [reflexivity|].
    exact Hproc. }
  split; [exact Hh|].
  intros Hr. unfold adapterListener.
  destruct (adapter cfg) as [[n r p [|]]|]; try reflexivity.
  unfold void, try_catch, bind, get. rewrite Hr. cbn [negb]. now rewrite Hh.
Qed.

Lemma unrecognised_event_is_ignored_witness :
  let cfg := Fixtures.entireConfig (JNum 0) Fixtures.noHydrate in
  handleAdapterEvent cfg (Fixtures.memoryWorld ∅ [] 0)
    (Fixtures.setEvent "nusm:other:entire") (Fixtures.readyStore (JNum 1))
  = (Ok tt, Fixtures.readyStore (JNum 1)).
Proof.
  intros cfg.
  refine (proj1
    (unrecognised_event_is_ignored cfg (Fixtures.memoryWorld ∅ [] 0)
       (Fixtures.setEvent "nusm:other:entire")
       (Fixtures.readyStore (JNum 1)) _ _)).
  - discriminate.
  - right. right. exists "nusm:other:entire". split; reflexivity.
Defined.

Section RemoveEvent.
Variable cfg : Config.
Variable w : World.

Lemma handleAdapterEvent_remove a ev k u st :
  adapter cfg = Some a ->
  ev_type ev = EvRemove ->
  ev_key ev = Some k ->
  truthy_string k = true ->
  recentlyWritten cfg w ev st = false ->
  persistenceUnits cfg !! k = Some u ->
  handleAdapterEvent cfg w ev st =
  match kind u with
  | KEntire => applyState cfg w (initialState cfg) st
  | KSlice =>
      match findSlice cfg u with
      | None => (Ok tt, st)
      | Some slice =>
          match select slice (initialState cfg) with
          | Throw e => (Throw e, st)
          | Ok resetValue =>
              match apply slice (state st) resetValue with
              | Throw e => (Throw e, st)
              | Ok nextState => applyState cfg w nextState st
              end
          end
      end
  end.
Proof.
  intros Ha Ht Hk Htr Hrw Hu.
  unfold handleAdapterEvent. rewrite Ha. unfold bind at 1, get.
  rewrite Hrw. unfold processAdapterEvent.
  rewrite Ht, Hk, Htr, Hu. cbn [negb].
  destruct (kind u); [reflexivity|].
  destruct (findSlice cfg u) as [slice|]; [|reflexivity]. run_monad.
  destruct (select slice (initialState cfg)); [|reflexivity].
  destruct (apply slice (state st) _); reflexivity.
Qed.

End RemoveEvent.

(** X5.  A [remove] event on a unit's key never reads the backend.  On the
    entire unit's key the state becomes the initial state; on a slice
    unit's key the slice's [apply] puts the slice's projection of the
    initial state onto the live state. *)
Theorem remove_event_resets_unit (cfg : Config) (w : World) (a : NusmAdapter)
  (ev : AdapterEvent) (k : string) (u : Unit) (st : Store) :
  adapter cfg = Some a ->
  ev_type ev = EvRemove ->
  ev_key ev = Some k ->
  truthy_string k = true ->
  recentlyWritten cfg w ev st = false ->
  persistenceUnits cfg !! k = Some u ->
  log (exec (handleAdapterEvent cfg w ev) st) = log st /\
  (kind u = KEntire ->
   setState_throws w (initialState cfg) = None ->
   state (exec (handleAdapterEvent cfg w ev) st) = initialState cfg) /\
  (kind u = KSlice ->
   forall slice resetValue nextState,
     findSlice cfg u = Some slice ->
     select slice (initialState cfg) = Ok resetValue ->
     apply slice (state st) resetValue = Ok nextState ->
     setState_throws w nextState = None ->
     state (exec (handleAdapterEvent cfg w ev) st) = nextState).
Proof.
  intros Ha Ht Hk Htr Hrw Hu. unfold exec.
  rewrite (handleAdapterEvent_remove cfg w a ev k u st Ha Ht Hk Htr Hrw Hu).
  assert (Hlog : forall v, log (snd (applyState cfg w v st)) = log st).
  { intros v. rewrite applyState_run.
    destruct (setState_throws w v); reflexivity. }
  split; [|split].
  - destruct (kind u); [apply Hlog|].
    destruct (findSlice cfg u) as [slice|]; [|reflexivity].
    destruct (select slice _); [|reflexivity].
    destruct (apply slice _ _); [apply Hlog | reflexivity].
  - intros -> Hok. rewrite applyState_run, Hok. reflexivity.
  - intros -> slice resetValue nextState -> -> -> Hok.
    rewrite applyState_run, Hok. reflexivity.
Qed.

(** The test "slice remove resets slice to initial", with a second field
    that the slice does not cover. *)
Lemma remove_event_resets_unit_witness :
  let initial := Fixtures.obj [("prefs", JStr "light"); ("count", JNum 0)] in
  let live := Fixtures.obj [("prefs", JStr "dark"); ("count", JNum 7)] in
  let cfg := Fixtures.slicesConfig initial ["prefs"] Fixtures.noHydrate in
  let ev := {| ev_type := EvRemove; ev_key := Some "nusm:s:slice:prefs" |} in
  state (exec (handleAdapterEvent cfg (Fixtures.memoryWorld ∅ [] 0) ev)
              (Fixtures.readyStore live))
  = Fixtures.obj [("prefs", JStr "light"); ("count", JNum 7)].
Proof.
  intros initial live cfg ev.
  refine (proj2 (proj2
    (remove_event_resets_unit cfg (Fixtures.memoryWorld ∅ [] 0)
       Fixtures.memoryAdapter ev "nusm:s:slice:prefs"
       (sliceUnit (Fixtures.fieldSlice "prefs")) (Fixtures.readyStore live)
       _ _ _ _ _ _)) _ (Fixtures.fieldSlice "prefs") (JStr "light") _ _ _ _ _);
    reflexivity.
Defined.

(** *** Hydration: statuses *)






Section Statuses.
Variable cfg : Config.
Variable w : World.





End Statuses.



(** *** Hydration: the discard directive and the empty backend *)


Section HydrateResolved.
Variable cfg : Config.
Variable w : World.



End HydrateResolved.





(** *** The persistence scheduler *)

Section Scheduler.
Variable cfg : Config.
Variable w : World.

Lemma flushEntry_run kv st :
  flushEntry w kv st =
  (Ok tt,
   match setItem w (q_key (snd kv)) (q_payload (snd kv)) with
   | Ok _ =>
       set_recentWrites
         (<[ q_key (snd kv) := now w ]> (recentWrites st))
         (emit (ESetItem (q_key (snd kv)) (q_payload (snd kv))) st)
   | Throw e =>
       emit (EOnError e)
         (emit (ESetItem (q_key (snd kv)) (q_payload (snd kv))) st)
   end).
Proof.
  unfold flushEntry. cbv zeta. run_monad.
  destruct (setItem w _ _); reflexivity.
Qed.

(** Writing the snapshot of the queue, entry by entry (lines 160-184). *)
Lemma flush_entries_run (entries : list (string * QueueEntry)) st :
  exists st',
    for_each entries (flushEntry w) st = (Ok tt, st') /\
    log st' = (log st ++ flat_map (fun kv => writeEffects w (snd kv)) entries)%list /\
    (forall k, recentWrites st' !! k =
               if existsb (fun kv => written w k (snd kv)) entries
               then Some (now w) else recentWrites st !! k) /\
    queuedPayloads st' = queuedPayloads st /\
    state st' = state st /\ suppressPersist st' = suppressPersist st /\
    byKey st' = byKey st.
Proof.
  revert st. induction entries as [|kv entries IH]; intros st.
  - exists st. cbn. rewrite app_nil_r. repeat split.
  - cbn [for_each]. unfold bind at 1. rewrite flushEntry_run.
    unfold writeEffects, written. cbn [flat_map existsb].
    destruct (setItem w (q_key (snd kv)) (q_payload (snd kv))) as [[]|e].
    + destruct (IH (set_recentWrites
                      (<[q_key (snd kv) := now w]> (recentWrites st))
                      (emit (ESetItem (q_key (snd kv)) (q_payload (snd kv))) st)))
        as (st' & -> & Hl & Hr & Hq & Hs & Hsp & Hb).
      exists st'. split; [reflexivity|].
      split; [|split; [|repeat split; assumption]].
      * rewrite Hl. cbn. now rewrite <- app_assoc.
      * intros k. rewrite Hr. cbn [recentWrites set_recentWrites emit].
        rewrite andb_true_r.
        destruct (String.eqb_spec (q_key (snd kv)) k) as [->|Hne]; cbn [orb].
        -- rewrite lookup_insert_eq. now destruct (existsb _ _).
        -- rewrite lookup_insert_ne by exact Hne. reflexivity.
    + destruct (IH (emit (EOnError e)
                      (emit (ESetItem (q_key (snd kv)) (q_payload (snd kv))) st)))
        as (st' & -> & Hl & Hr & Hq & Hs & Hsp & Hb).
      exists st'. split; [reflexivity|].
      split; [|split; [|repeat split; assumption]].
      * rewrite Hl. cbn. rewrite <- !app_assoc. reflexivity.
      * intros k. rewrite Hr. rewrite andb_false_r. reflexivity.
Qed.

Lemma flushQueue_run a st :
  adapter cfg = Some a ->
  exists st',
    flushQueue cfg w st = (Ok tt, st') /\
    queuedPayloads st' = [] /\
    log st' = (log st ++ flat_map (fun kv => writeEffects w (snd kv))
                                  (queuedPayloads st))%list /\
    (forall k, recentWrites st' !! k =
               if existsb (fun kv => written w k (snd kv)) (queuedPayloads st)
               then Some (now w) else recentWrites st !! k) /\
    state st' = state st /\ suppressPersist st' = suppressPersist st /\
    byKey st' = byKey st.
Proof.
  intros Ha. unfold flushQueue. rewrite Ha. unfold bind at 1, get.
  destruct (queuedPayloads st) as [|kv entries] eqn:Hq.
  - exists st. cbn. rewrite app_nil_r, Hq. repeat split.
  - unfold bind at 1, modify at 1. cbv beta iota.
    destruct (flush_entries_run (kv :: entries) (set_queuedPayloads [] st))
      as (st' & Hrun & Hl & Hr & Hq' & Hs & Hsp & Hb).
    unfold flushEntry in Hrun. rewrite Hrun.
    exists st'. repeat split; assumption.
Qed.

End Scheduler.



(** *** The subscriber of the container *)

Lemma filter_all_false {A} (f : A -> bool) (l : list A) :
  (forall x, x ∈ l -> f x = false) -> List.filter f l = [].
Proof.
  induction l as [|x l IH]; intros H; [reflexivity|]. cbn.
  rewrite (H x) by (apply elem_of_cons; auto).
  apply IH. intros y Hy. apply H, elem_of_cons. auto.
Qed.

Section SchedulerRuns.
Variable cfg : Config.
Variable w : World.

Lemma scheduleFlush_run a st :
  adapter cfg = Some a ->
  scheduleFlush cfg w st =
  match pacer a with
  | Some PacerOff => void (flushQueue cfg w) (emit EFlushNow st)
  | _ => (Ok tt, emit EPacer st)
  end.
Proof.
  intros Ha. unfold scheduleFlush. rewrite Ha.
  destruct (pacer a) as [[|]|]; reflexivity.
Qed.

Lemma enqueuePersist_run entry st :
  enqueuePersist cfg w entry st =
  scheduleFlush cfg w
    (emit (EScheduled (q_key entry))
       (set_queuedPayloads
          (map_set (q_key entry) entry (queuedPayloads st)) st)).
Proof. reflexivity. Qed.

Lemma enqueuePersist_returns entry st :
  exists st', enqueuePersist cfg w entry st = (Ok tt, st').
Proof.
  rewrite enqueuePersist_run. unfold scheduleFlush.
  destruct (adapter cfg) as [a|] eqn:Ha; [|eexists; reflexivity].
  destruct (pacer a) as [[|]|]; try (eexists; reflexivity).
  unfold bind, modify, void, try_catch.
  match goal with
  | |- context [flushQueue cfg w ?s] =>
      destruct (flushQueue_run cfg w a s Ha) as (st' & -> & _)
  end.
  eexists; reflexivity.
Qed.

Lemma setState_entire a v st :
  adapter cfg = Some a ->
  strategy cfg = StrategyEntire ->
  suppressPersist st = false ->
  setState_throws w v = None ->
  setState cfg w v st = enqueuePersist cfg w (entireEntry cfg v) (set_state v st).
Proof.
  intros Ha Hs Hf Hok. unfold setState, subscribeToStore. rewrite Hok, Ha, Hs.
  unfold bind, get, modify. cbn [suppressPersist set_state]. rewrite Hf.
  reflexivity.
Qed.

(** The loop of lines 240-251 for selectors that return: the changed
    slices are enqueued one after the other, each with its projection of
    the new state. *)
Lemma subscribeToStore_slices_run prevVal currentVal todo st :
  (forall slice,
      slice ∈ todo ->
      (exists x, select slice prevVal = Ok x) /\
      (exists x, select slice currentVal = Ok x)) ->
  exists st',
    for_each todo (fun slice =>
      let* prevSlice := call (select slice prevVal) in
      let* nextSlice := call (select slice currentVal) in
      if Object_is w prevSlice nextSlice then ret tt
      else
        enqueuePersist cfg w
          {| q_key := resolveKey cfg KSlice (Some (key slice));
             q_kind := KSlice; q_payload := nextSlice;
             q_sliceKey := Some (key slice) |}) st = (Ok tt, st') /\
    st' = fold_left
            (fun acc slice =>
               exec (enqueuePersist cfg w
                       (sliceEntry cfg slice (selected slice currentVal))) acc)
            (List.filter (sliceChanged w prevVal currentVal) todo) st.
Proof.
  revert st. induction todo as [|s todo IH]; intros st Hsel.
  - exists st. split; reflexivity.
  - destruct (Hsel s) as [[p Hp] [n Hn]]; [apply elem_of_cons; auto|].
    cbn [for_each List.filter]. unfold sliceChanged at 1. rewrite Hp, Hn.
    unfold bind at 1. unfold bind at 1 2. cbn [call ret].
    destruct (Object_is w p n); cbn [negb].
    + cbv beta iota. apply IH. intros s' Hin. apply Hsel, elem_of_cons. auto.
    + assert (Hent : sliceEntry cfg s (selected s currentVal) =
                     {| q_key := resolveKey cfg KSlice (Some (key s));
                        q_kind := KSlice; q_payload := n;
                        q_sliceKey := Some (key s) |})
        by (unfold sliceEntry, selected; now rewrite Hn).
      cbn [fold_left]. rewrite Hent. unfold exec at 2.
      destruct (enqueuePersist_returns
                  {| q_key := resolveKey cfg KSlice (Some (key s));
                     q_kind := KSlice; q_payload := n;
                     q_sliceKey := Some (key s) |} st) as [st1 ->].
      cbn [snd]. apply IH. intros s' Hin. apply Hsel, elem_of_cons. auto.
Qed.

End SchedulerRuns.

(** X10.  Under the slice strategy a change made by the application (flag
    down, selectors returning) enqueues exactly the slices whose projection
    differs, by identity, between the previous and the new state: in
    configured order, each under its own key with its projection of the
    new state.  When no projection differs the change is assigned and
    nothing is scheduled. *)
Theorem only_changed_slices_are_enqueued (cfg : Config) (w : World)
  (a : NusmAdapter) (v : JValue) (st : Store) :
  adapter cfg = Some a ->
  strategy cfg = StrategySlices ->
  suppressPersist st = false ->
  setState_throws w v = None ->
  (forall slice,
      slice ∈ slices cfg ->
      (exists x, select slice (state st) = Ok x) /\
      (exists x, select slice v = Ok x)) ->
  setState cfg w v st =
  (Ok tt,
   fold_left
     (fun acc slice =>
        exec (enqueuePersist cfg w
                (sliceEntry cfg slice (selected slice v))) acc)
     (List.filter (sliceChanged w (state st) v) (slices cfg))
     (set_state v st)) /\
  ((forall slice, slice ∈ slices cfg ->
                  sliceChanged w (state st) v slice = false) ->
   setState cfg w v st = (Ok tt, set_state v st)).
Proof.
  intros Ha Hs Hf Hok Hsel.
  assert (Hrun : setState cfg w v st =
    (Ok tt,
     fold_left
       (fun acc slice =>
          exec (enqueuePersist cfg w
                  (sliceEntry cfg slice (selected slice v))) acc)
       (List.filter (sliceChanged w (state st) v) (slices cfg))
       (set_state v st))).
  { unfold setState, subscribeToStore. rewrite Hok, Ha, Hs.
    unfold bind at 1, get. unfold bind at 1, modify at 1. cbv beta iota.
    unfold bind at 1, get. cbn [suppressPersist set_state]. rewrite Hf.
    destruct (subscribeToStore_slices_run cfg w (state st) v (slices cfg)
                (set_state v st) Hsel) as (st' & -> & ->).
    reflexivity. }
  split; [exact Hrun|].
  intros Hnone. rewrite Hrun. f_equal.
  assert (Hnil : List.filter (sliceChanged w (state st) v) (slices cfg) = []).
  { apply filter_all_false. exact Hnone. }
  now rewrite Hnil.
Qed.

(** The test "slice persistence schedules only changed slices", with a
    debounced adapter and identity taken as equality of the projections. *)
Lemma only_changed_slices_are_enqueued_witness :
  let initial := Fixtures.obj [("prefs", JStr "light"); ("todos", JArr [])] in
  let next := Fixtures.obj [("prefs", JStr "dark"); ("todos", JArr [])] in
  let cfg := Fixtures.slicesConfig initial ["todos"; "prefs"]
               Fixtures.noHydrate in
  let w :=
    {| getItem := fun _ => Ok JNull;
       setItem := fun _ _ => Ok tt;
       now := 0;
       setState_throws := fun _ => None;
       Object_is := fun x y =>
         match x, y with
         | JStr s1, JStr s2 => String.eqb s1 s2
         | JArr [], JArr [] => true
         | _, _ => false
         end |} in
  map fst (queuedPayloads
             (exec (setState cfg w next) (Fixtures.readyStore initial)))
  = ["nusm:s:slice:prefs"].
Proof.
  intros initial next cfg w. unfold exec.
  rewrite (proj1
    (only_changed_slices_are_enqueued cfg w Fixtures.memoryAdapter next
       (Fixtures.readyStore initial) eq_refl eq_refl eq_refl eq_refl
       ltac:(intros s Hs; apply list_elem_of_In in Hs;
             destruct Hs as [<-|[<-|[]]]; split; eexists; reflexivity))).
  reflexivity.
Defined.

(** *** Changes by the application: debounced, and written through *)

Lemma runOps_app cfg ops1 ops2 st :
  runOps cfg (ops1 ++ ops2) st = runOps cfg ops2 (runOps cfg ops1 st).
Proof. apply fold_left_app. Qed.

Lemma runOps_cons cfg wo ops st :
  runOps cfg (wo :: ops) st = runOps cfg ops (step cfg wo st).
Proof. reflexivity. Qed.

Lemma runOps_nil cfg st : runOps cfg [] st = st.
Proof. reflexivity. Qed.

Lemma step_setState cfg w v st :
  step cfg (w, OpSetState v) st = exec (setState cfg w v) st.
Proof. reflexivity. Qed.

Section EntireScheduling.
Variable cfg : Config.
Variable a : NusmAdapter.
Hypothesis Ha : adapter cfg = Some a.
Hypothesis Hs : strategy cfg = StrategyEntire.

(** One change by the application, debounced adapter. *)
Lemma setState_entire_debounced w v st :
  pacer a <> Some PacerOff ->
  suppressPersist st = false ->
  setState_throws w v = None ->
  setState cfg w v st =
  (Ok tt,
   emit EPacer
     (emit (EScheduled (resolveKey cfg KEntire None))
        (set_queuedPayloads
           (map_set (resolveKey cfg KEntire None) (entireEntry cfg v)
                    (queuedPayloads st))
           (set_state v st)))).
Proof.
  intros Hp Hf Hok. rewrite (setState_entire cfg w a v st Ha Hs Hf Hok).
  rewrite enqueuePersist_run, (scheduleFlush_run cfg w a _ Ha).
  destruct (pacer a) as [[|]|]; [contradiction | reflexivity | reflexivity].
Qed.

Lemma setStateOps_debounced changes st :
  pacer a <> Some PacerOff ->
  suppressPersist st = false ->
  (queuedPayloads st = [] \/
   exists e, queuedPayloads st = [(resolveKey cfg KEntire None, e)]) ->
  (forall wv, wv ∈ changes -> setState_throws (fst wv) (snd wv) = None) ->
  let st' := runOps cfg (setStateOps changes) st in
  suppressPersist st' = false /\
  (queuedPayloads st' = [] \/
   exists e, queuedPayloads st' = [(resolveKey cfg KEntire None, e)]) /\
  log st' = (log st ++
             flat_map (fun _ => [EScheduled (resolveKey cfg KEntire None);
                                 EPacer]) changes)%list.
Proof.
  intros Hp. revert st. induction changes as [|[w v] changes IH];
    intros st Hf Hq Hok; cbv zeta.
  - cbn. rewrite app_nil_r. auto.
  - change (setStateOps ((w, v) :: changes))
      with ((w, OpSetState v) :: setStateOps changes).
    rewrite runOps_cons, step_setState. unfold exec.
    rewrite (setState_entire_debounced w v st Hp Hf)
      by (apply (Hok (w, v)), elem_of_cons; auto).
    cbn [snd flat_map].
    match goal with
    | |- context [runOps cfg _ ?s] => destruct (IH s) as (Hf' & Hq' & Hl')
    end.
    + exact Hf.
    + right. cbn [queuedPayloads emit set_queuedPayloads].
      destruct Hq as [-> | [e ->]]; cbn [map_set];
        [|rewrite String.eqb_refl]; eauto.
    + intros wv Hin. apply Hok, elem_of_cons. auto.
    + split; [exact Hf'|]. split; [exact Hq'|].
      rewrite Hl'. cbn [log emit set_queuedPayloads set_state].
      rewrite <- !app_assoc. reflexivity.
Qed.

(** One change by the application, pacing disabled. *)
Lemma setState_entire_immediate w v st :
  pacer a = Some PacerOff ->
  suppressPersist st = false ->
  setState_throws w v = None ->
  queuedPayloads st = [] ->
  exists st',
    setState cfg w v st = (Ok tt, st') /\
    state st' = v /\ queuedPayloads st' = [] /\
    suppressPersist st' = false /\
    log st' = (log st ++ [EScheduled (resolveKey cfg KEntire None); EFlushNow]
                     ++ writeEffects w (entireEntry cfg v))%list /\
    (forall k, recentWrites st' !! k =
               if written w k (entireEntry cfg v) then Some (now w)
               else recentWrites st !! k).
Proof.
  intros Hp Hf Hok Hq. rewrite (setState_entire cfg w a v st Ha Hs Hf Hok).
  rewrite enqueuePersist_run, (scheduleFlush_run cfg w a _ Ha), Hp.
  unfold void, try_catch.
  match goal with
  | |- context [flushQueue cfg w ?s] =>
      destruct (flushQueue_run cfg w a s Ha)
        as (st' & -> & Hq' & Hl & Hr & Hst & Hsp & _)
  end.
  exists st'. split; [reflexivity|].
  cbn [queuedPayloads emit set_queuedPayloads set_state state log
       suppressPersist recentWrites] in *.
  rewrite Hq in *. cbn [map_set flat_map snd existsb] in *.
  split; [exact Hst|]. split; [exact Hq'|]. split; [now rewrite Hsp|].
  split.
  - rewrite Hl, app_nil_r, <- !app_assoc. reflexivity.
  - intros k. rewrite Hr, orb_false_r. reflexivity.
Qed.

End EntireScheduling.

(** X11.  Under the entire strategy with a debounced adapter, any number of
    changes by the application before the debouncer fires leave one queue
    entry, under the entire unit's key, holding the last state; each change
    asks the debouncer once and nothing is written.  When the flush then
    runs it writes that last state, once. *)
Theorem debounced_changes_coalesce (cfg : Config) (a : NusmAdapter)
  (changes : list (World * JValue)) (w : World) (v : JValue) (st : Store) :
  adapter cfg = Some a ->
  strategy cfg = StrategyEntire ->
  pacer a <> Some PacerOff ->
  suppressPersist st = false ->
  queuedPayloads st = [] ->
  (forall wv, wv ∈ (changes ++ [(w, v)])%list ->
              setState_throws (fst wv) (snd wv) = None) ->
  let st' := runOps cfg (setStateOps (changes ++ [(w, v)])) st in
  state st' = v /\
  queuedPayloads st' = [(resolveKey cfg KEntire None, entireEntry cfg v)] /\
  log st' = (log st ++
             flat_map (fun _ => [EScheduled (resolveKey cfg KEntire None);
                                 EPacer]) (changes ++ [(w, v)]))%list /\
  (forall w',
      log (exec (flushQueue cfg w') st')
      = (log st' ++ writeEffects w' (entireEntry cfg v))%list /\
      queuedPayloads (exec (flushQueue cfg w') st') = []).
Proof.
  intros Ha Hs Hp Hf Hq Hok. cbv zeta.
  unfold setStateOps. rewrite map_app, runOps_app. fold (setStateOps changes).
  destruct (setStateOps_debounced cfg a Ha Hs changes st Hp Hf (or_introl Hq))
    as (Hf1 & Hq1 & Hl1).
  { intros wv Hin. apply Hok, elem_of_app. auto. }
  cbn [map fst snd]. rewrite !runOps_cons, !runOps_nil, !step_setState.
  assert (Hrun : exec (setState cfg w v) (runOps cfg (setStateOps changes) st)
                 = emit EPacer
                     (emit (EScheduled (resolveKey cfg KEntire None))
                        (set_queuedPayloads
                           [(resolveKey cfg KEntire None, entireEntry cfg v)]
                           (set_state v (runOps cfg (setStateOps changes) st))))).
  { unfold exec.
    rewrite (setState_entire_debounced cfg a Ha Hs w v _ Hp Hf1)
      by (apply (Hok (w, v)), elem_of_app; right;
          now apply list_elem_of_singleton).
    cbn [snd]. destruct Hq1 as [-> | [e ->]]; cbn [map_set];
      [|rewrite String.eqb_refl]; reflexivity. }
  rewrite Hrun.
  cbn [state emit set_queuedPayloads set_state queuedPayloads log].
  rewrite Hl1, flat_map_app. cbn [flat_map].
  split; [reflexivity|]. split; [reflexivity|].
  split; [rewrite <- !app_assoc; reflexivity|].
  intros w'. unfold exec.
  match goal with
  | |- context [flushQueue cfg w' ?s] =>
      destruct (flushQueue_run cfg w' a s Ha) as (st' & -> & Hq' & Hl & _)
  end.
  cbn [queuedPayloads emit set_queuedPayloads log set_state flat_map snd] in Hl.
  rewrite app_nil_r in Hl.
  cbn [snd]. split; [|exact Hq'].
  rewrite Hl, Hl1. rewrite <- !app_assoc. reflexivity.
Qed.

(** The test "debounces persistence and coalesces values":
    [count] goes 1, 2, 3 and one write carries 3. *)
Lemma debounced_changes_coalesce_witness :
  let cfg := Fixtures.entireConfig (JNum 0) Fixtures.noHydrate in
  let w := Fixtures.memoryWorld ∅ [] 0 in
  let st' := runOps cfg (setStateOps ([(w, JNum 1); (w, JNum 2)] ++ [(w, JNum 3)]))
               (Fixtures.readyStore (JNum 0)) in
  log (exec (flushQueue cfg w) st')
  = (log st' ++ [ESetItem "nusm:s:entire" (JNum 3)])%list.
Proof.
  intros cfg w.
  refine (proj1 (proj2 (proj2 (proj2
    (debounced_changes_coalesce cfg Fixtures.memoryAdapter
       [(w, JNum 1); (w, JNum 2)] w (JNum 3) (Fixtures.readyStore (JNum 0))
       _ _ _ _ _ _))) w));
    first [reflexivity | discriminate | intros wv Hin].
  apply elem_of_app in Hin as [Hin | Hin].
  - apply elem_of_cons in Hin as [-> | Hin]; [reflexivity|].
    apply list_elem_of_singleton in Hin as ->. reflexivity.
  - apply list_elem_of_singleton in Hin as ->. reflexivity.
Defined.

(** X12.  Under the entire strategy with pacing disabled, a change by the
    application is written through at once: [adapter.setItem] is called
    with the entire unit's key and the new state before [setState]
    returns, nothing stays queued, and a successful write stamps the
    ledger with the time of the write. *)
Theorem unpaced_change_is_written_at_once (cfg : Config) (a : NusmAdapter)
  (w : World) (v : JValue) (st : Store) :
  adapter cfg = Some a ->
  strategy cfg = StrategyEntire ->
  pacer a = Some PacerOff ->
  suppressPersist st = false ->
  queuedPayloads st = [] ->
  setState_throws w v = None ->
  let st' := exec (setState cfg w v) st in
  let k := resolveKey cfg KEntire None in
  state st' = v /\
  queuedPayloads st' = [] /\
  log st' = (log st ++ [EScheduled k; EFlushNow] ++
             writeEffects w (entireEntry cfg v))%list /\
  (setItem w k v = Ok tt -> recentWrites st' !! k = Some (now w)) /\
  (forall e, setItem w k v = Throw e ->
             recentWrites st' = recentWrites st /\ In (EOnError e) (log st')).
Proof.
  intros Ha Hs Hp Hf Hq Hok. cbv zeta. unfold exec.
  destruct (setState_entire_immediate cfg a Ha Hs w v st Hp Hf Hok Hq)
    as (st' & -> & Hst & Hq' & _ & Hl & Hr).
  cbn [snd]. split; [exact Hst|]. split; [exact Hq'|]. split; [exact Hl|].
  unfold written, writeEffects in *. cbn [entireEntry q_key q_payload] in *.
  split.
  - intros Hw. rewrite Hr, Hw, String.eqb_refl. reflexivity.
  - intros e Hw. rewrite Hw in *. split.
    + apply map_eq. intros k. rewrite Hr, andb_false_r. reflexivity.
    + rewrite Hl. apply in_or_app. right. cbn. auto.
Qed.

(** The test "pacer false persists immediately". *)
Lemma unpaced_change_is_written_at_once_witness :
  let cfg := Fixtures.withAdapter Fixtures.immediateAdapter
               (Fixtures.entireConfig (JNum 0) Fixtures.noHydrate) in
  log (exec (setState cfg (Fixtures.memoryWorld ∅ [] 1000) (JNum 1))
            (Fixtures.readyStore (JNum 0)))
  = [EScheduled "nusm:s:entire"; EFlushNow; ESetItem "nusm:s:entire" (JNum 1)].
Proof.
  intros cfg.
  refine (proj1 (proj2 (proj2
    (unpaced_change_is_written_at_once cfg Fixtures.immediateAdapter
       (Fixtures.memoryWorld ∅ [] 1000) (JNum 1)
       (Fixtures.readyStore (JNum 0)) _ _ _ _ _ _)))); reflexivity.
Defined.

(** X13.  After such a write-through that succeeded, a [set] or [remove]
    event for the entire unit's key that arrives before the suppression
    window has elapsed is taken for the echo of the write and changes
    nothing. *)
Theorem own_write_echo_is_ignored (cfg : Config) (a : NusmAdapter)
  (w w2 : World) (v : JValue) (ev : AdapterEvent) (st : Store) :
  adapter cfg = Some a ->
  strategy cfg = StrategyEntire ->
  pacer a = Some PacerOff ->
  suppressPersist st = false ->
  queuedPayloads st = [] ->
  setState_throws w v = None ->
  setItem w (resolveKey cfg KEntire None) v = Ok tt ->
  now w <> 0 ->
  ev_type ev <> EvClear ->
  ev_key ev = Some (resolveKey cfg KEntire None) ->
  now w2 - now w < recentWriteWindowMs cfg ->
  let st' := exec (setState cfg w v) st in
  handleAdapterEvent cfg w2 ev st' = (Ok tt, st') /\
  state st' = v.
Proof.
  intros Ha Hs Hp Hf Hq Hok Hw Hnz Ht Hk Hlt. cbv zeta. unfold exec.
  destruct (setState_entire_immediate cfg a Ha Hs w v st Hp Hf Hok Hq)
    as (st' & -> & Hst & _ & _ & _ & Hr).
  cbn [snd]. split; [|exact Hst].
  specialize (Hr (resolveKey cfg KEntire None)).
  unfold written in Hr. cbn [entireEntry q_key q_payload] in Hr.
  rewrite Hw, String.eqb_refl in Hr. cbn in Hr.
  unfold handleAdapterEvent. rewrite Ha. unfold bind, get, recentlyWritten.
  rewrite Hk, Hr.
  destruct (Z.eqb_spec (now w) 0) as [|_]; [contradiction|].
  destruct (Z.ltb_spec (now w2 - now w) (recentWriteWindowMs cfg)); [|lia].
  cbn [negb andb].
  destruct (truthy_string (resolveKey cfg KEntire None)) eqn:Htr.
  - destruct (ev_type ev); [reflexivity | reflexivity | contradiction].
  - unfold processAdapterEvent. rewrite Hk, Htr.
    destruct (ev_type ev); [reflexivity | reflexivity | contradiction].
Qed.

(** The test "ignores external event after recent write". *)
Lemma own_write_echo_is_ignored_witness :
  let cfg := Fixtures.withAdapter Fixtures.immediateAdapter
               (Fixtures.entireConfig (Fixtures.obj [("value", JNum 0)])
                  Fixtures.noHydrate) in
  let backend := {[ "nusm:s:entire" := Fixtures.obj [("value", JNum 1)] ]} in
  let st' :=
    exec (setState cfg (Fixtures.memoryWorld backend [] 1000)
            (Fixtures.obj [("value", JNum 2)]))
         (Fixtures.readyStore (Fixtures.obj [("value", JNum 0)])) in
  state st' = Fixtures.obj [("value", JNum 2)].
Proof.
  intros cfg backend.
  refine (proj2
    (own_write_echo_is_ignored cfg Fixtures.immediateAdapter
       (Fixtures.memoryWorld backend [] 1000)
       (Fixtures.memoryWorld backend [] 1010)
       (Fixtures.obj [("value", JNum 2)])
       (Fixtures.setEvent "nusm:s:entire")
       (Fixtures.readyStore (Fixtures.obj [("value", JNum 0)]))
       _ _ _ _ _ _ _ _ _ _ _)); try reflexivity; discriminate.
Defined.

(** *** A store without an adapter; the readiness flag and signal *)

Section Transitions.
Variable cfg : Config.

Lemma keeps_bookkeeping_flushQueue w : keeps bookkeeping (flushQueue cfg w).
Proof. unfold flushQueue. repeat keeps_step. Qed.

Lemma keeps_bookkeeping_setState w v : keeps bookkeeping (setState cfg w v).
Proof.
  unfold setState, subscribeToStore, enqueuePersist, scheduleFlush, void.
  repeat first [ apply keeps_bookkeeping_flushQueue | keeps_step ].
Qed.

Lemma keeps_bookkeeping_handleAdapterEvent w ev :
  keeps bookkeeping (handleAdapterEvent cfg w ev).
Proof.
  unfold handleAdapterEvent, processAdapterEvent, adapter_getItem,
    applyExternalState.
  repeat first
    [ apply keeps_bookkeeping_setState
    | match goal with
      | |- keeps _ (clearSlices_loop _ _ _) =>
          intros st; unfold exec; now rewrite clearSlices_loop_run
      end
    | keeps_step ].
Qed.








End Transitions.








(** *** Relations along a body *)

Section Steps.
Variable R : Store -> Store -> Prop.
Hypothesis R_refl : forall st, R st st.
Hypothesis R_trans : forall st1 st2 st3, R st1 st2 -> R st2 st3 -> R st1 st3.

Lemma steps_ret {A} (a : A) : steps R (ret a).
Proof. intros st. apply R_refl. Qed.

Lemma steps_throw {A} (e : Exn) : steps R (@throw A e).
Proof. intros st. apply R_refl. Qed.

Lemma steps_call {A} (r : Result A) : steps R (call r).
Proof. destruct r; [apply steps_ret | apply steps_throw]. Qed.

Lemma steps_get : steps R get.
Proof. intros st. apply R_refl. Qed.

Lemma steps_modify (f : Store -> Store) :
  (forall st, R st (f st)) -> steps R (modify f).
Proof. intros Hf st. apply Hf. Qed.

Lemma steps_bind {A B} (m : M A) (k : A -> M B) :
  steps R m -> (forall a, steps R (k a)) -> steps R (bind m k).
Proof.
  intros Hm Hk st. specialize (Hm st). unfold exec, bind in *.
  destruct (m st) as [[a|e] st1]; cbn [snd] in *; [|exact Hm].
  eapply R_trans; [exact Hm | apply (Hk a st1)].
Qed.

Lemma steps_try_catch {A} (m : M A) (h : Exn -> M A) :
  steps R m -> (forall e, steps R (h e)) -> steps R (try_catch m h).
Proof.
  intros Hm Hh st. specialize (Hm st). unfold exec, try_catch in *.
  destruct (m st) as [[a|e] st1]; cbn [snd] in *; [exact Hm|].
  eapply R_trans; [exact Hm | apply (Hh e st1)].
Qed.


Lemma steps_for_each {A} (xs : list A) (body : A -> M unit) :
  (forall x, x ∈ xs -> steps R (body x)) -> steps R (for_each xs body).
Proof.
  induction xs as [|x xs IH]; intros Hb; cbn [for_each].
  - apply steps_ret.
  - apply steps_bind.
    + apply Hb, elem_of_cons. auto.
    + intros _. apply IH. intros y Hy. apply Hb, elem_of_cons. auto.
Qed.

End Steps.



Lemma onlyReads_refl st : onlyReads st st.
Proof. exists []. rewrite app_nil_r. auto. Qed.

Lemma onlyReads_trans st1 st2 st3 :
  onlyReads st1 st2 -> onlyReads st2 st3 -> onlyReads st1 st3.
Proof.
  intros (r1 & H1 & Hr1) (r2 & H2 & Hr2). exists (r1 ++ r2)%list.
  rewrite H2, H1, <- app_assoc, forallb_app, Hr1, Hr2. auto.
Qed.

(** *** The keys the engine uses *)


Section OwnKeys.
Variable cfg : Config.
Variable a : NusmAdapter.
Hypothesis Ha : adapter cfg = Some a.

















End OwnKeys.




(** *** Errors while an adapter event is handled *)

Ltac reads_step :=
  first
    [ apply (steps_ret _ onlyReads_refl)
    | apply (steps_throw _ onlyReads_refl)
    | apply (steps_call _ onlyReads_refl)
    | apply (steps_get _ onlyReads_refl)
    | apply (steps_bind _ onlyReads_trans); [|intros ?]
    | apply (steps_try_catch _ onlyReads_trans); [|intros ?]
    | match goal with
      | |- steps _ (if ?x then _ else _) => destruct x
      | |- steps _ (match ?x with _ => _ end) => destruct x
      end ].

Section EventErrors.
Variable cfg : Config.
Variable w : World.

Lemma onlyReads_applyExternalState v :
  steps onlyReads (applyExternalState cfg w v).
Proof.
  intros st. unfold exec. rewrite applyExternalState_run, applyState_run.
  destruct (setState_throws w v); exists []; cbn; rewrite app_nil_r; auto.
Qed.

Lemma onlyReads_getItem k : steps onlyReads (adapter_getItem w k).
Proof.
  unfold adapter_getItem. reads_step; [|reads_step].
  apply steps_modify. intros st. exists [EGetItem k]. auto.
Qed.

Lemma onlyReads_handleAdapterEvent ev :
  steps onlyReads (handleAdapterEvent cfg w ev).
Proof.
  unfold handleAdapterEvent, processAdapterEvent.
  repeat first
    [ apply onlyReads_applyExternalState
    | apply onlyReads_getItem
    | match goal with
      | |- steps _ (clearSlices_loop _ _ _) =>
          intros st; unfold exec; rewrite clearSlices_loop_run;
          apply onlyReads_refl
      end
    | reads_step ].
Qed.

Lemma for_each_app {A} (xs ys : list A) (body : A -> M unit) st :
  for_each (xs ++ ys) body st =
  match for_each xs body st with
  | (Ok _, st1) => for_each ys body st1
  | (Throw e, st1) => (Throw e, st1)
  end.
Proof.
  revert st. induction xs as [|x xs IH]; intros st; [reflexivity|].
  cbn [for_each app]. unfold bind. destruct (body x st) as [[u|e] st1].
  - apply IH.
  - reflexivity.
Qed.

End EventErrors.

(** X16.  [handleAdapterEvent] has no [catch] and never calls the error
    sink: whatever an event does, the only thing it adds to the store's
    dealings with the outside is backend reads.  When the handling of a
    buffered event throws during the replay, the error is dropped, the
    events buffered behind it are never handled, and the buffer is empty
    all the same. *)
Theorem replay_stops_at_first_throw (cfg : Config) (w : World)
  (before after : list AdapterEvent) (ev : AdapterEvent) (e : Exn)
  (st st1 st2 : Store) :
  pendingAdapterEvents st = (before ++ ev :: after)%list ->
  for_each before (handleAdapterEvent cfg w) (set_pendingAdapterEvents [] st)
    = (Ok tt, st1) ->
  handleAdapterEvent cfg w ev st1 = (Throw e, st2) ->
  void (replayPending cfg w) st = (Ok tt, st2) /\
  pendingAdapterEvents st2 = [] /\
  onlyReads st st2 /\
  (forall ev' st', onlyReads st' (exec (handleAdapterEvent cfg w ev') st')).
Proof.
  intros Hp Hb He.
  assert (Hrun : void (replayPending cfg w) st = (Ok tt, st2)).
  { unfold void, try_catch, replayPending, bind, get, modify. rewrite Hp.
    destruct (before ++ ev :: after)%list as [|x l] eqn:Hl.
    - now destruct before.
    - rewrite <- Hl, for_each_app, Hb. cbn [for_each]. unfold bind.
      rewrite He. reflexivity. }
  split; [exact Hrun|].
  split; [|split].
  - assert (Hfor : bookkeeping st1
                   = bookkeeping (set_pendingAdapterEvents [] st)).
    { pose proof (keeps_for_each bookkeeping before
                    (handleAdapterEvent cfg w)
                    (keeps_bookkeeping_handleAdapterEvent cfg w)
                    (set_pendingAdapterEvents [] st)) as H.
      unfold exec in H. rewrite Hb in H. exact H. }
    pose proof (keeps_bookkeeping_handleAdapterEvent cfg w ev st1) as H2.
    unfold exec in H2. rewrite He in H2. cbn [snd] in H2.
    rewrite Hfor in H2. now injection H2.
  - eapply onlyReads_trans;
      [|pose proof (onlyReads_handleAdapterEvent cfg w ev st1) as H;
        unfold exec in H; rewrite He in H; exact H].
    pose proof (steps_for_each onlyReads onlyReads_refl onlyReads_trans before
                  (handleAdapterEvent cfg w)
                  (fun x _ => onlyReads_handleAdapterEvent cfg w x)
                  (set_pendingAdapterEvents [] st)) as H.
    unfold exec in H. rewrite Hb in H. exact H.
  - intros ev' st'. apply onlyReads_handleAdapterEvent.
Qed.

(** A [set] event whose read throws, buffered ahead of a [clear]: the
    [clear] is lost. *)
Lemma replay_stops_at_first_throw_witness :
  let cfg := Fixtures.entireConfig (JNum 0) Fixtures.noHydrate in
  let w := Fixtures.memoryWorld ∅ ["nusm:s:entire"] 0 in
  let st := set_pendingAdapterEvents
              [Fixtures.setEvent "nusm:s:entire"; Fixtures.clearEvent]
              (Fixtures.readyStore (JNum 7)) in
  void (replayPending cfg w) st
  = (Ok tt, emit (EGetItem "nusm:s:entire") (Fixtures.readyStore (JNum 7))).
Proof.
  intros cfg w st.
  refine (proj1 (replay_stops_at_first_throw cfg w []
                   [Fixtures.clearEvent] (Fixtures.setEvent "nusm:s:entire")
                   (JStr "getItem failed") st
                   (Fixtures.readyStore (JNum 7)) _ _ _ _)); reflexivity.
Defined.

(** X18.  An adapter event is applied without consulting the hydration
    settings: a persisted value that hydration turns down (the discard
    directive is on, or [validate] rejects it) and so hydrates to the
    initial state is merged into the state when a [set] event announces
    it. *)
Theorem set_event_bypasses_validation (cfg : Config) (w : World)
  (a : NusmAdapter) (ev : AdapterEvent) (raw merged : JValue) (st : Store) :
  adapter cfg = Some a ->
  strategy cfg = StrategyEntire ->
  truthy_string (resolveKey cfg KEntire None) = true ->
  ev_type ev = EvSet ->
  ev_key ev = Some (resolveKey cfg KEntire None) ->
  recentlyWritten cfg w ev st = false ->
  getItem w (resolveKey cfg KEntire None) = Ok raw ->
  is_nullish raw = false ->
  entireMerge cfg raw = Ok merged ->
  setState_throws w merged = None ->
  (shouldDiscardPersisted (hydrateConfig cfg) = Ok true \/
   shouldDiscardPersisted (hydrateConfig cfg) = Ok false /\
   exists result,
     validateStep (hydrateConfig cfg) raw = Ok result /\ r_ok result = false) ->
  (forall st0, outcome (hydrateEntire cfg w) st0 = Ok (initialState cfg)) /\
  state (exec (handleAdapterEvent cfg w ev) st) = merged.
Proof.
  intros Ha Hs Htr Ht Hk Hrw Hget Hnn Hm Hok Hrej. split.
  - intros st0. unfold outcome. destruct Hrej as [Hd | (Hd & result & Hv & Hr)].
    + unfold hydrateEntire. rewrite Ha, Hd. reflexivity.
    + rewrite (hydrateEntire_run cfg w a st0 Ha Hd). cbv zeta.
      rewrite Hget, Hnn, Hv, Hr. reflexivity.
  - unfold exec.
    rewrite (handleAdapterEvent_set_entire cfg w a ev _
               {| kind := KEntire; sliceKey := None |} st Ha Ht Hk Htr Hrw).
    + cbv zeta. rewrite Hget, Hnn, Hm, applyState_run, Hok. reflexivity.
    + unfold persistenceUnits. rewrite Ha, Hs. apply lookup_singleton_eq.
    + reflexivity.
Qed.

(** [validate] only accepts numbers below 10; 42 is persisted. *)
Lemma set_event_bypasses_validation_witness :
  let h := {| validate := Some (fun v =>
                match v with
                | JNum n => Ok (VBool (n <? 10)%Z)
                | _ => Ok (VBool false)
                end);
              merge := None; discardPersisted := None |} in
  let cfg := Fixtures.entireConfig (JNum 0) h in
  let w := Fixtures.memoryWorld {[ "nusm:s:entire" := JNum 42 ]} [] 0 in
  state (exec (handleAdapterEvent cfg w (Fixtures.setEvent "nusm:s:entire"))
              (Fixtures.readyStore (JNum 0))) = JNum 42.
Proof.
  intros h cfg w.
  refine (proj2 (set_event_bypasses_validation cfg w Fixtures.memoryAdapter
                   (Fixtures.setEvent "nusm:s:entire") (JNum 42) (JNum 42)
                   (Fixtures.readyStore (JNum 0)) _ _ _ _ _ _ _ _ _ _ _));
    try reflexivity.
  right. split; [reflexivity|]. eexists. split; reflexivity.
Defined.

(** *** [resolveStoreId] *)

Lemma is_slug_plain (c : ascii) :
  is_slug c = true -> is_space c = false /\ lower_ascii c = c.
Proof.
  destruct c as [[] [] [] [] [] [] [] []]; vm_compute; intros H;
    first [discriminate H | split; reflexivity].
Qed.

Lemma lower_ascii_space (c : ascii) :
  is_space c = false -> is_space (lower_ascii c) = false.
Proof.
  destruct c as [[] [] [] [] [] [] [] []]; vm_compute; intros H;
    first [discriminate H | reflexivity].
Qed.

Lemma all_chars_impl (p q : ascii -> bool) (s : string) :
  (forall c, p c = true -> q c = true) ->
  all_chars p s = true -> all_chars q s = true.
Proof.
  intros Hpq. induction s as [|c s IH]; [reflexivity|]. cbn [all_chars].
  intros H. apply andb_prop in H as [Hc Hs]. now rewrite (Hpq c Hc), IH.
Qed.

Lemma all_chars_stripNonSlug (s : string) :
  all_chars is_slug (stripNonSlug s) = true.
Proof.
  induction s as [|c s IH]; [reflexivity|]. cbn [stripNonSlug].
  destruct (is_slug c) eqn:Hc; [|exact IH]. cbn [all_chars].
  now rewrite Hc, IH.
Qed.

Lemma trim_no_space (s : string) :
  all_chars (fun c => negb (is_space c)) s = true -> trim s = s.
Proof.
  intros Hs. unfold trim.
  assert (Hstart : trimStart s = s).
  { destruct s as [|c rest]; [reflexivity|]. cbn [trimStart all_chars] in *.
    apply andb_prop in Hs as [Hc _]. now destruct (is_space c). }
  rewrite Hstart. clear Hstart.
  induction s as [|c rest IH]; [reflexivity|]. cbn [trimEnd all_chars] in *.
  apply andb_prop in Hs as [Hc Hrest]. rewrite (IH Hrest).
  destruct (is_space c); [discriminate|]. now destruct rest.
Qed.

Lemma replaceSpaces_no_space (b : bool) (s : string) :
  all_chars (fun c => negb (is_space c)) s = true -> replaceSpaces b s = s.
Proof.
  revert b. induction s as [|c rest IH]; intros b Hs; [reflexivity|].
  cbn [replaceSpaces all_chars] in *. apply andb_prop in Hs as [Hc Hrest].
  destruct (is_space c); [discriminate|]. now rewrite (IH _ Hrest).
Qed.

Lemma toLowerCase_slug (s : string) :
  all_chars is_slug s = true -> toLowerCase s = s.
Proof.
  induction s as [|c rest IH]; [reflexivity|]. cbn [toLowerCase all_chars].
  intros H. apply andb_prop in H as [Hc Hrest].
  now rewrite (IH Hrest), (proj2 (is_slug_plain c Hc)).
Qed.

Lemma stripNonSlug_slug (s : string) :
  all_chars is_slug s = true -> stripNonSlug s = s.
Proof.
  induction s as [|c rest IH]; [reflexivity|]. cbn [stripNonSlug all_chars].
  intros H. apply andb_prop in H as [Hc Hrest]. now rewrite Hc, (IH Hrest).
Qed.

Lemma slug_no_space (s : string) :
  all_chars is_slug s = true ->
  all_chars (fun c => negb (is_space c)) s = true.
Proof.
  apply all_chars_impl. intros c Hc.
  now rewrite (proj1 (is_slug_plain c Hc)).
Qed.

Lemma strip_all (b : bool) (s : string) :
  all_chars (fun c => negb (is_slug (lower_ascii c)) && negb (is_space c)) s
    = true ->
  stripNonSlug (replaceSpaces b (toLowerCase s)) = "".
Proof.
  revert b. induction s as [|c rest IH]; intros b Hs; [reflexivity|].
  cbn [all_chars] in Hs. apply andb_prop in Hs as [Hc Hrest].
  apply andb_prop in Hc as [Hslug Hsp].
  apply negb_true_iff in Hslug, Hsp.
  cbn [toLowerCase replaceSpaces].
  rewrite (lower_ascii_space c Hsp). cbn [stripNonSlug]. rewrite Hslug.
  apply IH, Hrest.
Qed.

(** X20.  [resolveStoreId] returns a non-empty [storeId] option as it
    is, unsanitised.  Failing that, a non-empty devtools name gives an id
    made of the characters [a-z0-9-_] only, and deriving an id from an id
    so derived gives it back; the derived id is empty when the name has no
    white space and no character that lower-cases into that class.  With
    neither option there is no id.  An adapter together with an id that
    is missing or empty makes construction throw the configuration
    error. *)
Theorem derived_store_id_is_a_slug (given : option string)
  (devtools : option Devtools) :
  (forall sid,
      given = Some sid -> truthy_string sid = true ->
      resolveStoreId given devtools = Some sid) /\
  (forall name,
      given = None \/ given = Some "" ->
      devtools = Some (DevtoolsObject (Some name)) ->
      truthy_string name = true ->
      ascii_only name = true ->
      exists sid,
        resolveStoreId given devtools = Some sid /\
        all_chars is_slug sid = true /\
        (truthy_string sid = true ->
         resolveStoreId None (Some (DevtoolsObject (Some sid))) = Some sid) /\
        (all_chars (fun c => negb (is_slug (lower_ascii c))
                             && negb (is_space c)) name = true ->
         sid = "")) /\
  (resolveStoreId given devtools = None <->
   (given = None \/ given = Some "") /\
   forall name, devtools = Some (DevtoolsObject (Some name)) -> name = "") /\
  (forall cfg,
      storeId cfg = resolveStoreId given devtools ->
      is_Some (adapter cfg) ->
      (createNusmStore cfg = Throw configError <->
       resolveStoreId given devtools = None \/
       resolveStoreId given devtools = Some "")).
Proof.
  split; [|split; [|split]].
  - intros sid -> Ht. unfold resolveStoreId. now rewrite Ht.
  - intros name Hg -> Ht _.
    exists (stripNonSlug (replaceSpaces false (toLowerCase (trim name)))).
    split; [|split; [|split]].
    + unfold resolveStoreId. destruct Hg as [-> | ->]; cbn; now rewrite Ht.
    + apply all_chars_stripNonSlug.
    + set (sid := stripNonSlug _). intros Hsid.
      assert (Hslug : all_chars is_slug sid = true)
        by apply all_chars_stripNonSlug.
      unfold resolveStoreId. cbn. rewrite Hsid.
      rewrite (trim_no_space sid (slug_no_space sid Hslug)).
      rewrite (toLowerCase_slug sid Hslug).
      rewrite (replaceSpaces_no_space false sid (slug_no_space sid Hslug)).
      now rewrite (stripNonSlug_slug sid Hslug).
    + intros Hall. rewrite trim_no_space.
      * apply strip_all, Hall.
      * revert Hall. apply all_chars_impl. intros c Hc.
        now apply andb_prop in Hc as [_ Hc].
  - unfold resolveStoreId. split.
    + intros H. destruct given as [[|c s]|]; cbn in H; try discriminate H.
      all: split; [auto|]; intros name ->; destruct name; [reflexivity|];
        discriminate H.
    + intros [[-> | ->] Hn]; cbn.
      all: destruct devtools as [[b|[name|]]|]; try reflexivity.
      all: now rewrite (Hn name eq_refl).
  - intros cfg Hid [a Ha]. unfold createNusmStore, has_storeId.
    rewrite Ha, Hid.
    destruct (resolveStoreId given devtools) as [[|c s]|]; cbn; split;
      intros H; try reflexivity; try discriminate H; auto.
    destruct H as [H | H]; discriminate H.
Qed.

(** The devtools name ["My Store 1"] gives the id ["my-store-1"]. *)
Lemma derived_store_id_is_a_slug_witness :
  exists sid,
    resolveStoreId None (Some (DevtoolsObject (Some "My Store 1"))) = Some sid /\
    all_chars is_slug sid = true.
Proof.
  destruct (proj1 (proj2 (derived_store_id_is_a_slug None
                            (Some (DevtoolsObject (Some "My Store 1")))))
              "My Store 1" (or_introl eq_refl) eq_refl eq_refl eq_refl)
    as (sid & H1 & H2 & _).
  exists sid. split; assumption.
Defined.

(** *** The storage adapter *)

Lemma prefix_append (p s : string) : String.prefix p (p ++ s) = true.
Proof.
  induction p as [|c p IH]; [now destruct s|].
  change (String.prefix (String c p) (String c (p ++ s)) = true).
  cbn [String.prefix]. destruct (ascii_dec c c); [exact IH | contradiction].
Qed.

Lemma truthy_append (p : string) (c : ascii) (s : string) :
  truthy_string (p ++ String c s) = true.
Proof. now destruct p. Qed.

Section StorageKeys.
Variable cfg : Config.
Variable name_ : string.
Variable o : StorageAdapter.Options.
Variable pacer_ : option NusmPacerConfig.
Hypothesis Ha : adapter cfg = Some (StorageAdapter.create name_ o pacer_).
Hypothesis Hid : has_storeId cfg = true.

Lemma storage_resolveKey kind_ sliceKey_ :
  exists rest,
    resolveKey cfg kind_ sliceKey_
    = (StorageAdapter.prefix o ++ String ":" rest)%string.
Proof.
  unfold resolveKey, has_storeId in *.
  destruct (storeId cfg) as [sid|]; [|discriminate]. rewrite Hid, Ha.
  cbn. destruct kind_; eexists; reflexivity.
Qed.

Lemma storage_unit_keys k :
  is_Some (persistenceUnits cfg !! k) ->
  exists rest, k = (StorageAdapter.prefix o ++ String ":" rest)%string.
Proof.
  intros [u Hu]. destruct (strategy cfg) eqn:Hs.
  - unfold persistenceUnits in Hu. rewrite Ha, Hs in Hu.
    destruct (decide (resolveKey cfg KEntire None = k)) as [<-|Hne].
    + apply storage_resolveKey.
    + now rewrite lookup_singleton_ne in Hu.
  - rewrite (persistenceUnits_slices cfg _ Ha Hs) in Hu.
    apply foldl_insert_lookup in Hu as [Hin | [Hu _]].
    + apply list_elem_of_fmap in Hin as (slice & [= -> _] & _).
      apply storage_resolveKey.
    + now rewrite lookup_empty in Hu.
Qed.

End StorageKeys.

(** X21.  The storage adapter forwards a storage event as [set] or
    [remove] under the event's own key, [remove] exactly when the new
    value is [null]; it never forwards a [clear], and an event without a
    key (what [storage.clear()] fires) is not forwarded at all.  Every
    backend key of a store that persists through this adapter starts with
    the adapter's prefix, so no event on one of the store's unit keys is
    filtered out. *)
Theorem storage_events_reach_the_store (cfg : Config) (name_ : string)
  (o : StorageAdapter.Options) (pacer_ : option NusmPacerConfig) :
  adapter cfg = Some (StorageAdapter.create name_ o pacer_) ->
  has_storeId cfg = true ->
  (forall event ev,
      StorageAdapter.handler o event = Some ev ->
      ev_type ev <> EvClear /\
      ev_key ev = StorageAdapter.se_key event /\
      (ev_type ev = EvRemove <-> StorageAdapter.se_newValue event = None)) /\
  (forall newValue,
      StorageAdapter.handler o
        {| StorageAdapter.se_key := None;
           StorageAdapter.se_newValue := newValue |} = None) /\
  (forall k newValue,
      is_Some (persistenceUnits cfg !! k) ->
      String.prefix (StorageAdapter.prefix o) k = true /\
      StorageAdapter.handler o
        {| StorageAdapter.se_key := Some k;
           StorageAdapter.se_newValue := newValue |}
      = Some {| ev_type := match newValue with
                           | None => EvRemove
                           | Some _ => EvSet
                           end;
                ev_key := Some k |}).
Proof.
  intros Ha Hid. split; [|split].
  - intros [k nv] ev. unfold StorageAdapter.handler. cbn.
    destruct k as [k|]; [|discriminate].
    destruct (negb (truthy_string k)); [discriminate|].
    destruct (negb (String.prefix _ k)); [discriminate|].
    destruct nv; intros [= <-]; cbn; split; try discriminate;
      (split; [reflexivity|]); split; congruence.
  - reflexivity.
  - intros k nv Hk.
    destruct (storage_unit_keys cfg name_ o pacer_ Ha Hid k Hk) as [rest ->].
    split; [apply prefix_append|].
    unfold StorageAdapter.handler. cbn.
    rewrite truthy_append, prefix_append. now destruct nv.
Qed.

(** A local-storage adapter with the default prefix, the entire unit of
    store ["s"]. *)
Lemma storage_events_reach_the_store_witness :
  let o := {| StorageAdapter.prefix := "nusm";
              StorageAdapter.serialize := fun _ => Ok "raw";
              StorageAdapter.deserialize := fun _ => Ok JNull |} in
  String.prefix (StorageAdapter.prefix o) "nusm:s:entire" = true.
Proof.
  intros o.
  refine (proj1 (proj2 (proj2
    (storage_events_reach_the_store
       (Fixtures.withAdapter
          (StorageAdapter.create "localStorage" o
             (Some (PacerOn 50 false true)))
          (Fixtures.entireConfig (JNum 0) Fixtures.noHydrate))
       "localStorage" o (Some (PacerOn 50 false true)) eq_refl eq_refl))
    "nusm:s:entire" None _)).
  vm_compute. eauto.
Defined.

(** X22.  What the storage adapter writes under a key is what it reads
    back: after [setItem(key, value)], [getItem(key)] is [deserialize] of
    what [serialize] made of the value, so the value itself when the two
    are inverse, and the other keys read as before.  When [serialize]
    throws nothing is stored.  An absent or removed key reads as [null]
    without [deserialize] being called. *)
Theorem storage_item_round_trip (o : StorageAdapter.Options)
  (storage : StorageAdapter.Storage) (k : string) (v : JValue) :
  (forall raw,
      StorageAdapter.serialize o v = Ok raw ->
      let written := StorageAdapter.setItem o k v storage in
      fst written = Ok tt /\
      StorageAdapter.getItem o (snd written) k = StorageAdapter.deserialize o raw /\
      (StorageAdapter.deserialize o raw = Ok v ->
       StorageAdapter.getItem o (snd written) k = Ok v) /\
      (forall k', k' <> k ->
                  StorageAdapter.getItem o (snd written) k'
                  = StorageAdapter.getItem o storage k') /\
      StorageAdapter.getItem o
        (StorageAdapter.removeItem k (snd written)) k = Ok JNull) /\
  (forall e,
      StorageAdapter.serialize o v = Throw e ->
      StorageAdapter.setItem o k v storage = (Throw e, storage)) /\
  (storage !! k = None -> StorageAdapter.getItem o storage k = Ok JNull).
Proof.
  split; [|split].
  - intros raw Hraw. cbv zeta.
    unfold StorageAdapter.setItem, StorageAdapter.getItem,
      StorageAdapter.removeItem.
    rewrite Hraw. cbv beta iota. cbn [fst snd].
    unfold StorageAdapter.Storage in *. rewrite lookup_insert_eq.
    split; [reflexivity|]. split; [reflexivity|]. split; [auto|]. split.
    + intros k' Hne. now rewrite lookup_insert_ne by congruence.
    + now rewrite lookup_delete_eq.
  - intros e He. unfold StorageAdapter.setItem. now rewrite He.
  - intros Hk. unfold StorageAdapter.getItem. now rewrite Hk.
Qed.

(** A codec that stores numbers as their sign. *)
Lemma storage_item_round_trip_witness :
  let o := {| StorageAdapter.prefix := "nusm";
              StorageAdapter.serialize := fun v =>
                match v with
                | JNum 0 => Ok "zero"
                | _ => Throw (JStr "unsupported")
                end;
              StorageAdapter.deserialize := fun raw =>
                if String.eqb raw "zero" then Ok (JNum 0)
                else Throw (JStr "corrupt") |} in
  StorageAdapter.getItem o
    (snd (StorageAdapter.setItem o "k" (JNum 0) ∅)) "k" = Ok (JNum 0).
Proof.
  intros o.
  exact (proj1 (proj2 (proj2
    (proj1 (storage_item_round_trip o ∅ "k" (JNum 0)) "zero" eq_refl)))
    eq_refl).
Defined.

(** *** Slice hydration: the reads and the fold *)

Section SliceOrder.
Variable cfg : Config.
Variable w : World.
Variable a : NusmAdapter.
Hypothesis Ha : adapter cfg = Some a.

Lemma hydrateSlice_reads slice nextState st :
  List.filter isRead (log (exec (hydrateSlice cfg w slice nextState) st))
  = (List.filter isRead (log st)
     ++ [EGetItem (resolveKey cfg KSlice (Some (key slice)))])%list.
Proof.
  unfold exec. rewrite (hydrateSlice_run cfg w a slice nextState st Ha).
  cbv zeta.
  destruct (getItem w _) as [raw|e];
    [destruct (is_nullish raw);
     [|destruct (validateStep _ raw) as [r|e];
       [destruct (r_ok r);
        [destruct (apply slice nextState _)|]|]]|];
    cbn [snd log emit set_byKey]; rewrite !List.filter_app; cbn;
    rewrite ?app_nil_r; reflexivity.
Qed.

Lemma hydrateSlices_loop_reads todo nextState st :
  List.filter isRead (log (exec (hydrateSlices_loop cfg w todo nextState) st))
  = (List.filter isRead (log st)
     ++ map (fun slice => EGetItem (resolveKey cfg KSlice (Some (key slice))))
            todo)%list.
Proof.
  revert nextState st. induction todo as [|s todo IH]; intros ns st.
  - cbn. now rewrite app_nil_r.
  - cbn [hydrateSlices_loop map]. unfold exec, bind.
    pose proof (hydrateSlice_reads s ns st) as Hs.
    pose proof (hydrateSlice_outcome cfg w a s ns st Ha) as Ho.
    unfold exec, outcome in Hs, Ho.
    destruct (hydrateSlice cfg w s ns st) as [r st1]. cbn [fst snd] in *.
    subst r. specialize (IH (hydratedSliceValue cfg w s ns) st1).
    unfold exec in IH. rewrite IH, Hs, <- app_assoc. reflexivity.
Qed.

End SliceOrder.

(** X23.  Under the slice strategy with the discard directive off,
    hydration reads the key of every configured slice exactly once, in
    configured order, whatever is missing, rejected or failing on the
    way.  The state it applies is the fold over the slices, in that
    order and from the initial state, of each slice's accepted value; a
    slice whose value is absent, rejected or failing passes the state on
    as it is. *)
Theorem slices_hydrate_in_configured_order (cfg : Config) (w : World)
  (a : NusmAdapter) (st : Store) :
  adapter cfg = Some a ->
  strategy cfg = StrategySlices ->
  shouldDiscardPersisted (hydrateConfig cfg) = Ok false ->
  ready st = ReadyPending ->
  let v := fold_left (fun ns slice => hydratedSliceValue cfg w slice ns)
                     (slices cfg) (initialState cfg) in
  let st' := exec (hydrate cfg w) st in
  List.filter isRead (log st')
  = (List.filter isRead (log st) ++ map EGetItem (hydrationKeys cfg))%list /\
  (setState_throws w v = None ->
   state st' = v /\ ready st' = ReadyResolved /\ isReady st' = true).
Proof.
  intros Ha Hs Hd Hp. cbv zeta.
  assert (Hrun : hydrationOf cfg w st
                 = hydrateSlices_loop cfg w (slices cfg) (initialState cfg) st).
  { unfold hydrationOf, hydrateSlices. rewrite Hs, Hd. reflexivity. }
  pose proof (hydrateSlices_loop_reads cfg w a Ha (slices cfg)
                (initialState cfg) st) as Hreads.
  pose proof (hydrateSlices_loop_outcome cfg w a (slices cfg)
                (initialState cfg) st Ha) as Hout.
  pose proof (keeps_frame_hydrationOf cfg w st) as Hf.
  unfold exec, outcome in *. rewrite (hydrate_run cfg w a st Ha).
  fold (hydrationOf cfg w). rewrite Hrun in *.
  destruct (hydrateSlices_loop cfg w (slices cfg) (initialState cfg) st)
    as [r st1]. cbn [fst snd] in *. subst r.
  assert (Hkeys : map EGetItem (hydrationKeys cfg)
                  = map (fun slice =>
                           EGetItem (resolveKey cfg KSlice (Some (key slice))))
                        (slices cfg)).
  { unfold hydrationKeys. rewrite Hs. apply map_map. }
  rewrite Hkeys, <- Hreads. split.
  - destruct (setState_throws w _); cbn [snd log settle set_isReady
      set_overall set_suppressPersist set_state emit];
      [rewrite List.filter_app; cbn; now rewrite app_nil_r | reflexivity].
  - intros ->. cbn. rewrite (frame_ready _ _ Hf), Hp. auto.
Qed.

(** Two field slices, the second one's read failing: both keys are read
    and the first slice's value is applied. *)
Lemma slices_hydrate_in_configured_order_witness :
  let cfg := Fixtures.slicesConfig
               (Fixtures.obj [("a", JNum 1); ("b", JNum 2)]) ["a"; "b"]
               Fixtures.noHydrate in
  let w := Fixtures.memoryWorld {[ "nusm:s:slice:a" := JNum 5 ]}
             ["nusm:s:slice:b"] 0 in
  List.filter isRead (log (exec (hydrate cfg w) (Fixtures.created cfg)))
  = [EGetItem "nusm:s:slice:a"; EGetItem "nusm:s:slice:b"].
Proof.
  intros cfg w.
  exact (proj1 (slices_hydrate_in_configured_order cfg w Fixtures.memoryAdapter
                  (Fixtures.created cfg) eq_refl eq_refl eq_refl eq_refl)).
Defined.
